(** * tools/preprocess_data.py: the document pre-processing pipeline

    A shallow embedding of the tokenization pipeline of
    [tools/preprocess_data.py]: the text normalizer [sanitize], the document
    source [yield_from_files], the encoder [Encoder.encode] and the driver
    loop of [main] with its semaphore, followed by the properties of the
    pipeline that the specification states. *)

From Stdlib Require Import ZArith NArith Lia.
From Stdlib.Strings Require Import Byte.
From stdpp Require Import gmap strings list.

Local Open Scope Z_scope.

(** ** Python values *)

(** A Python [str] is a sequence of Unicode code points; [len] counts code
    points. *)
Abbreviation pystr := (list N).

(** The exceptions the modelled code can raise. *)
Inductive exn : Type :=
| IndexError
| KeyError (key : string)
| OSError (fname : string)
| ValueError
| ZeroDivisionError
| EncodingOverflow
| BuilderSealed.

(** The outcome of a call: a value, an exception, or a call that never
    returns ([Semaphore.acquire] on an exhausted semaphore that nobody
    releases). *)
Inductive result (A : Type) : Type :=
| Ok (a : A)
| Raise (e : exn)
| Blocks.
Arguments Ok {A} a.
Arguments Raise {A} e.
Arguments Blocks {A}.

(** [len(x)] as a Python integer. *)
Definition len {A} (l : list A) : Z := Z.of_nat (length l).

(** Truthiness of a string: [if f:] holds for the non-empty ones. *)
Definition truthy (s : pystr) : bool :=
  match s with [] => false | _ :: _ => true end.

(** A [dict] whose iteration order is observed ([doc.items()] in [main]):
    an association list in insertion order; assigning to a present key
    keeps its position. *)
Fixpoint dict_set {V} (d : list (string * V)) (key : string) (v : V)
  : list (string * V) :=
  match d with
  | [] => [(key, v)]
  | (k, w) :: d' =>
      if String.eqb k key then (k, v) :: d' else (k, w) :: dict_set d' key v
  end.

Fixpoint dict_get {V} (d : list (string * V)) (key : string) : option V :=
  match d with
  | [] => None
  | (k, w) :: d' => if String.eqb k key then Some w else dict_get d' key
  end.

(** ** Text normalization *)

Definition SPACE_TOKEN : N := 0x2581%N.
Definition TAB_TOKEN : N := 1%N.
Definition NEWLINE_TOKEN : N := 2%N.

Definition chr_newline : N := 10%N.
Definition chr_tab : N := 9%N.
Definition chr_space : N := 32%N.

(** [text.replace(old, new)] where, as at each call site of [sanitize],
    [old] and [new] are single characters: every occurrence is replaced. *)
Definition str_replace (old new : N) (text : pystr) : pystr :=
  map (fun c => if N.eqb c old then new else c) text.

Definition sanitize (text : pystr) : pystr :=
  let text := str_replace chr_newline NEWLINE_TOKEN text in
  let text := str_replace chr_tab TAB_TOKEN text in
  let text := str_replace chr_space SPACE_TOKEN text in
  text.

(** The number of bytes of the UTF-8 encoding of a string (the encoding the
    files are read with); this is the quantity the specification calls the
    byte length of a document. *)
Definition utf8_width (c : N) : Z :=
  if (c <? 0x80)%N then 1
  else if (c <? 0x800)%N then 2
  else if (c <? 0x10000)%N then 3
  else 4.

Definition byte_length (text : pystr) : Z :=
  fold_right (fun c acc => utf8_width c + acc) 0 text.

(** ** Reading a file: [open(fname, encoding='utf-8', errors='ignore')] *)

Definition is_cont (b : N) : bool := ((0x80 <=? b) && (b <=? 0xBF))%N.

Definition in_range (lo hi b : N) : bool := ((lo <=? b) && (b <=? hi))%N.

(** The second byte allowed after a three- or four-byte lead byte
    (no overlong forms, no surrogates, nothing above U+10FFFF). *)
Definition second_ok (b0 b1 : N) : bool :=
  if (b0 =? 0xE0)%N then in_range 0xA0 0xBF b1
  else if (b0 =? 0xED)%N then in_range 0x80 0x9F b1
  else if (b0 =? 0xF0)%N then in_range 0x90 0xBF b1
  else if (b0 =? 0xF4)%N then in_range 0x80 0x8F b1
  else is_cont b1.

(** UTF-8 decoding with [errors='ignore']: a byte that does not start a
    well-formed sequence is dropped and decoding resumes at the next byte,
    so decoding never fails. *)
Fixpoint utf8_decode_ignore (bs : list N) : pystr :=
  match bs with
  | [] => []
  | b0 :: r0 =>
      if (b0 <? 0x80)%N then b0 :: utf8_decode_ignore r0
      else if in_range 0xC2 0xDF b0 then
        match r0 with
        | b1 :: r1 =>
            if is_cont b1
            then ((b0 - 0xC0) * 64 + (b1 - 0x80))%N :: utf8_decode_ignore r1
            else utf8_decode_ignore r0
        | _ => utf8_decode_ignore r0
        end
      else if in_range 0xE0 0xEF b0 then
        match r0 with
        | b1 :: b2 :: r2 =>
            if second_ok b0 b1 && is_cont b2
            then ((b0 - 0xE0) * 4096 + (b1 - 0x80) * 64 + (b2 - 0x80))%N
                   :: utf8_decode_ignore r2
            else utf8_decode_ignore r0
        | _ => utf8_decode_ignore r0
        end
      else if in_range 0xF0 0xF4 b0 then
        match r0 with
        | b1 :: b2 :: b3 :: r3 =>
            if second_ok b0 b1 && is_cont b2 && is_cont b3
            then ((b0 - 0xF0) * 262144 + (b1 - 0x80) * 4096
                  + (b2 - 0x80) * 64 + (b3 - 0x80))%N
                   :: utf8_decode_ignore r3
            else utf8_decode_ignore r0
        | _ => utf8_decode_ignore r0
        end
      else utf8_decode_ignore r0
  end.

(** Text mode with the default [newline=None]: "\r\n" and a lone "\r" are
    read as "\n". *)
Fixpoint universal_newlines (s : pystr) : pystr :=
  match s with
  | [] => []
  | c :: r =>
      if (c =? 13)%N then
        chr_newline ::
          match r with
          | d :: r' =>
              if (d =? 10)%N then universal_newlines r' else universal_newlines r
          | [] => []
          end
      else c :: universal_newlines r
  end.

(** The files that can be opened and read, with their bytes; for any other
    name [open] raises [OSError]. *)
Abbreviation filesystem := (gmap string (list byte)).

Definition read (files : filesystem) (fname : string) : result pystr :=
  match files !! fname with
  | None => Raise (OSError fname)
  | Some raw =>
      let doc := universal_newlines (utf8_decode_ignore (map Byte.to_N raw)) in
      let doc := sanitize doc in
      Ok doc
  end.

(** ** The encoder *)

(** The command-line arguments the pipeline reads ([get_args]). *)
Record Args : Type := {
  input : string;
  json_keys : list string;
  num_docs : option Z;
  append_eod : bool;
  ftfy : bool;
  output_prefix : string;
  dataset_impl : string;
  workers : Z;
  log_interval : Z
}.

(** The tokenizer collaborator built by [build_tokenizer]: [tokenize]
    returns a fresh list of token ids at each call. *)
Record Tokenizer : Type := {
  tokenize : pystr -> list Z;
  eod : Z;
  vocab_size : Z
}.

(** An encoded document: key to list of token sequences, in insertion
    order. *)
Abbreviation encoded := (list (string * list (list Z))).

(** [doc_ids[-1].append(x)]: the last sequence of [doc_ids] grows by [x];
    indexing an empty list raises [IndexError]. *)
Fixpoint append_to_last (doc_ids : list (list Z)) (x : Z)
  : result (list (list Z)) :=
  match doc_ids with
  | [] => Raise IndexError
  | [s] => Ok [s ++ [x]]
  | s :: rest =>
      match append_to_last rest x with
      | Ok rest' => Ok (s :: rest')
      | Raise e => Raise e
      | Blocks => Blocks
      end
  end.

Section Encoder.

  (** [ftfy.fix_text], the text repair of the ftfy library. *)
Variable fix_text : pystr -> pystr.
Variable args : Args.
Variable tokenizer : Tokenizer.

  (** One iteration of the loop over [args.json_keys]: the token
      sequences stored under a key. *)
Definition encode_key (text : pystr) : result (list (list Z)) :=
    let doc_ids := [] in
    let text_ids := tokenize tokenizer text in
    let doc_ids := if 0 <? len text_ids then doc_ids ++ [text_ids] else doc_ids in
    if append_eod args then append_to_last doc_ids (eod tokenizer)
    else Ok doc_ids.

Fixpoint encode_keys (text : pystr) (keys : list string) (ids : encoded)
    : result encoded :=
    match keys with
    | [] => Ok ids
    | key :: keys' =>
        match encode_key text with
        | Ok doc_ids => encode_keys text keys' (dict_set ids key doc_ids)
        | Raise e => Raise e
        | Blocks => Blocks
        end
    end.

Definition encode (text : pystr) : result (encoded * Z) :=
    let text := if ftfy args then fix_text text else text in
    match encode_keys text (json_keys args) [] with
    | Ok ids => Ok (ids, len text)
    | Raise e => Raise e
    | Blocks => Blocks
    end.

End Encoder.

(** Sequencing of calls that may raise. *)
Definition result_bind {A B} (m : result A) (k : A -> result B) : result B :=
  match m with
  | Ok a => k a
  | Raise e => Raise e
  | Blocks => Blocks
  end.

(** ** The document source *)

(** [os.path.join(root, file)] for the relative names [os.walk] lists. *)
Definition os_path_join (root file : string) : string :=
  if String.eqb root "" then file
  else if String.eqb (String.substring (String.length root - 1) 1 root) "/"
       then root +:+ file
       else root +:+ "/" +:+ file.

(** What the generator does at a file, in order: take a permit, hand a
    document to its consumer. *)
Inductive source_event : Type :=
| Acquire
| Yield (doc : pystr).

Section Source.

  (** [random.shuffle]: the order in which it leaves the names. *)
Variable shuffle : list string -> list string.
Variable files : filesystem.

  (** The names collected from [os.walk(dir)], given as the list of its
      (root, files) entries, after the shuffle. *)
Definition list_fnames (walk : list (string * list string)) : list string :=
    shuffle (flat_map (fun '(root, names) => map (os_path_join root) names) walk).

  (** [yielder]: [Some f] stands for [semaphore.acquire(); yield f], [None]
      for a file that yields nothing. *)
Definition yielder (fname : string) : result (option pystr) :=
    result_bind (read files fname) (fun f =>
      if truthy f then Ok (Some f) else Ok None).

Definition yielder_events (fname : string) : result (list source_event) :=
    result_bind (yielder fname) (fun o =>
      match o with
      | Some f => Ok [Acquire; Yield f]
      | None => Ok []
      end).

  (** The generator run to its end: the events it performs, and the
      exception that ended it, if any. *)
Fixpoint yield_from (fnames : list string) : list source_event * option exn :=
    match fnames with
    | [] => ([], None)
    | fname :: rest =>
        match yielder_events fname with
        | Ok evs => let '(evs', out) := yield_from rest in (evs ++ evs', out)
        | Raise e => ([], Some e)
        | Blocks => ([], None)
        end
    end.

Definition yield_from_files (walk : list (string * list string))
    : list source_event * option exn :=
    yield_from (list_fnames walk).

End Source.

(** The documents among the events of the source. *)
Definition yielded (evs : list source_event) : list pystr :=
  flat_map (fun ev => match ev with Yield d => [d] | Acquire => [] end) evs.

Definition acquires (evs : list source_event) : nat :=
  length (List.filter (fun ev => match ev with Acquire => true | _ => false end) evs).

(** ** Dataset builders *)

(** The builder interface [main] relies on: [indexed_dataset.make_builder]
    and the three methods called on its result. A builder is a mutable
    object; each method returns the builder after the call. *)
Class DatasetBuilder (B : Type) : Type := {
  make_builder : string -> string -> Z -> result B;
  add_item : B -> list Z -> result B;
  end_document : B -> result B;
  finalize : B -> string -> result B
}.

(** Modelled from the spec: the Dataset Builder of
    [megatron/data/indexed_dataset.py], which is not among the sources.
    It keeps the token blob, the length and offset of each token sequence
    and the document boundaries (starting at 0); the item width is 2 bytes
    when the vocabulary fits in 16 bits and 4 bytes otherwise; [add_item]
    raises [EncodingOverflow] on a token id outside the width; [finalize]
    writes the index and seals the builder, after which every call raises
    [BuilderSealed]. *)
Record IndexedBuilder : Type := {
  bin_file : string;
  item_width : Z;
  token_blob : list Z;
  lengths : list Z;
  offsets : list Z;
  boundaries : list Z;
  index_file : option string
}.

Definition sealed (b : IndexedBuilder) : bool :=
  match index_file b with Some _ => true | None => false end.

Definition ib_make (out_file impl : string) (vocab : Z) : result IndexedBuilder :=
  Ok {| bin_file := out_file;
        item_width := if vocab <=? 65536 then 2 else 4;
        token_blob := [];
        lengths := [];
        offsets := [];
        boundaries := [0];
        index_file := None |}.

Definition fits (width : Z) (token : Z) : bool :=
  (0 <=? token) && (token <? 256 ^ width).

Definition ib_add_item (b : IndexedBuilder) (seq : list Z) : result IndexedBuilder :=
  if sealed b then Raise BuilderSealed
  else if forallb (fits (item_width b)) seq then
    Ok {| bin_file := bin_file b;
          item_width := item_width b;
          token_blob := token_blob b ++ seq;
          lengths := lengths b ++ [len seq];
          offsets := offsets b ++ [len (token_blob b) * item_width b];
          boundaries := boundaries b;
          index_file := None |}
  else Raise EncodingOverflow.

Definition ib_end_document (b : IndexedBuilder) : result IndexedBuilder :=
  if sealed b then Raise BuilderSealed
  else
    Ok {| bin_file := bin_file b;
          item_width := item_width b;
          token_blob := token_blob b;
          lengths := lengths b;
          offsets := offsets b;
          boundaries := boundaries b ++ [len (lengths b)];
          index_file := None |}.

Definition ib_finalize (b : IndexedBuilder) (index_path : string)
  : result IndexedBuilder :=
  if sealed b then Raise BuilderSealed
  else
    Ok {| bin_file := bin_file b;
          item_width := item_width b;
          token_blob := token_blob b;
          lengths := lengths b;
          offsets := offsets b;
          boundaries := boundaries b;
          index_file := Some index_path |}.

#[export] Instance indexed_builder : DatasetBuilder IndexedBuilder := {
  make_builder := ib_make;
  add_item := ib_add_item;
  end_document := ib_end_document;
  finalize := ib_finalize
}.

(** ** The driver *)

(** What the loop of [main] mutates: the semaphore, the three dictionaries
    keyed by output key, the byte counter and the progress bar. *)
Record Driver (B : Type) : Type := {
  semaphore : Z;
  output_bin_files : gmap string string;
  output_idx_files : gmap string string;
  builders : gmap string B;
  total_bytes_processed : Z;
  pbar : Z
}.
Arguments semaphore {B} _.
Arguments output_bin_files {B} _.
Arguments output_idx_files {B} _.
Arguments builders {B} _.
Arguments total_bytes_processed {B} _.
Arguments pbar {B} _.

(** The state in which [main] starts: nothing bound yet. *)
Definition fresh_driver {B} : Driver B :=
  {| semaphore := 0; output_bin_files := ∅; output_idx_files := ∅;
     builders := ∅; total_bytes_processed := 0; pbar := 0 |}.

Definition set_semaphore {B} (v : Z) (st : Driver B) : Driver B :=
  {| semaphore := v;
     output_bin_files := output_bin_files st;
     output_idx_files := output_idx_files st;
     builders := builders st;
     total_bytes_processed := total_bytes_processed st;
     pbar := pbar st |}.

Definition set_files {B} (bins idxs : gmap string string) (st : Driver B)
  : Driver B :=
  {| semaphore := semaphore st;
     output_bin_files := bins;
     output_idx_files := idxs;
     builders := builders st;
     total_bytes_processed := total_bytes_processed st;
     pbar := pbar st |}.

Definition set_builders {B} (bs : gmap string B) (st : Driver B) : Driver B :=
  {| semaphore := semaphore st;
     output_bin_files := output_bin_files st;
     output_idx_files := output_idx_files st;
     builders := bs;
     total_bytes_processed := total_bytes_processed st;
     pbar := pbar st |}.

Definition set_counters {B} (bytes bar : Z) (st : Driver B) : Driver B :=
  {| semaphore := semaphore st;
     output_bin_files := output_bin_files st;
     output_idx_files := output_idx_files st;
     builders := builders st;
     total_bytes_processed := bytes;
     pbar := bar |}.

(** Statements of [main]: they change the driver state and return, raise
    or block; the state reached is kept in each case. *)
Definition M (B A : Type) : Type := Driver B -> result A * Driver B.

Definition ret {B A} (a : A) : M B A := fun st => (Ok a, st).

Definition bind {B A C} (m : M B A) (k : A -> M B C) : M B C :=
  fun st =>
    match m st with
    | (Ok a, st') => k a st'
    | (Raise e, st') => (Raise e, st')
    | (Blocks, st') => (Blocks, st')
    end.

Definition lift {B A} (r : result A) : M B A := fun st => (r, st).

Declare Scope py_scope.
Delimit Scope py_scope with py.
Notation "'let*' x := m 'in' k" := (bind m (fun x => k))
  (at level 10, x pattern, m at level 100, k at level 200) : py_scope.
Notation "m1 >> m2" := (bind m1 (fun _ => m2))
  (at level 62, right associativity) : py_scope.

(** A [for] loop over a list. *)
Fixpoint for_each {B A} (l : list A) (body : A -> M B unit) : M B unit :=
  match l with
  | [] => ret tt
  | x :: l' => (body x >> for_each l' body)%py
  end.

Section Main.

Context {B : Type} {builder_ops : DatasetBuilder B}.
Variable fix_text : pystr -> pystr.
Variable args : Args.
Variable tokenizer : Tokenizer.

Local Open Scope py_scope.

(** [Semaphore(value)] raises [ValueError] on a negative value. *)
Definition new_semaphore (value : Z) : M B unit :=
  fun st =>
    if value <? 0 then (Raise ValueError, st)
    else (Ok tt, set_semaphore value st).

(** [semaphore.acquire()]: with no permit left the caller waits; in the
    single-process run nobody else can release, so it waits for ever. *)
Definition acquire : M B unit :=
  fun st =>
    if 0 <? semaphore st then (Ok tt, set_semaphore (semaphore st - 1) st)
    else (Blocks, st).

Definition release : M B unit :=
  fun st => (Ok tt, set_semaphore (semaphore st + 1) st).

(** [builders[key].method(...)]: the lookup raises [KeyError] on a key
    without builder; the builder object is updated in place. *)
Definition call_builder (key : string) (method : B -> result B) : M B unit :=
  fun st =>
    match builders st !! key with
    | None => (Raise (KeyError key), st)
    | Some b =>
        match method b with
        | Ok b' => (Ok tt, set_builders (<[key := b']> (builders st)) st)
        | Raise e => (Raise e, st)
        | Blocks => (Blocks, st)
        end
    end.

(** The body of the loop over [("text",)] that makes the builders. *)
Definition make_builder_for (key : string) : M B unit :=
  fun st =>
    let bin := output_prefix args +:+ "_" +:+ key +:+ "_" +:+ "document" +:+ ".bin" in
    let idx := output_prefix args +:+ "_" +:+ key +:+ "_" +:+ "document" +:+ ".idx" in
    let st := set_files (<[key := bin]> (output_bin_files st))
                        (<[key := idx]> (output_idx_files st)) st in
    match make_builder bin (dataset_impl args) (vocab_size tokenizer) with
    | Ok b => (Ok tt, set_builders (<[key := b]> (builders st)) st)
    | Raise e => (Raise e, st)
    | Blocks => (Blocks, st)
    end.

Definition make_builders : M B unit :=
  for_each ["text"%string] make_builder_for.

(** The progress report every [log_interval] documents; the throughput
    figures in its message depend on the clock and are left out. *)
Definition log_progress (i : Z) : M B unit :=
  fun st =>
    if log_interval args =? 0 then (Raise ZeroDivisionError, st)
    else if i mod log_interval args =? 0 then
      (Ok tt, set_counters (total_bytes_processed st)
                           (if i =? 0 then pbar st else pbar st + log_interval args) st)
    else (Ok tt, st).

(** The body of the loop over the encoded results. *)
Definition consume (i : Z) (item : encoded * Z) : M B unit :=
  let '(doc, bytes_processed) := item in
  (fun st => (Ok tt, set_counters (total_bytes_processed st + bytes_processed)
                                  (pbar st) st)) >>
  release >>
  for_each doc (fun '(key, sentences) =>
    for_each sentences (fun sentence =>
      call_builder key (fun b => add_item b sentence)) >>
    call_builder key end_document) >>
  log_progress i.

(** The loop that saves the output files. *)
Definition finalize_key (key : string) : M B unit :=
  fun st =>
    match builders st !! key, output_idx_files st !! key with
    | Some _, Some idx => call_builder key (fun b => finalize b idx) st
    | _, _ => (Raise (KeyError key), st)
    end.

Definition finalize_all : M B unit :=
  for_each (json_keys args) finalize_key.

(** The single-process branch ([args.workers <= 1]): the generator, the
    encoder and the loop body run in turn, [i] counting the results from
    1. *)
Fixpoint drain (files : filesystem) (fnames : list string) (i : Z) : M B unit :=
  match fnames with
  | [] => ret tt
  | fname :: rest =>
      let* o := lift (yielder files fname) in
      match o with
      | None => drain files rest i
      | Some f =>
          acquire >>
          let* item := lift (encode fix_text args tokenizer f) in
          consume i item >>
          drain files rest (i + 1)
      end
  end.

Definition main_inline (shuffle : list string -> list string)
  (files : filesystem) (walk : list (string * list string))
  : result unit * Driver B :=
  (new_semaphore (10000 + workers args) >>
   make_builders >>
   drain files (list_fnames shuffle walk) 1 >>
   finalize_all) fresh_driver.

End Main.

(** Statements that leave the semaphore alone, whatever their outcome. *)
Definition keeps_semaphore {B A} (m : M B A) : Prop :=
  forall st, semaphore (snd (m st)) = semaphore st.

(** Statements that keep a property of the driver state, whatever their
    outcome. *)
Definition preserves {B A} (P : Driver B -> Prop) (m : M B A) : Prop :=
  forall st, P st -> P (snd (m st)).

(** The driver has no builder under a key. *)
Definition no_builder {B} (key : string) (st : Driver B) : Prop :=
  builders st !! key = None.

(** ** The pipeline as a transition system *)

(** With [args.workers > 1] the generator is iterated by the pool while
    [main] consumes the results, so the two sides interleave. A state
    holds the file names the source has not reached, the exception that
    ended the source (if any), the documents yielded whose result [main]
    has not consumed (oldest first; [pool.imap] delivers results in
    submission order), the number of results consumed, the driver state,
    and the way [main] ended once it has. The pool's batching of the
    documents into chunks of 25 is not represented: it decides when a
    result can be consumed and when an exception of the source is seen,
    and changes neither the semaphore nor which documents have been
    yielded and not yet consumed. *)
Record Pipeline (B : Type) : Type := {
  unread : list string;
  source_exn : option exn;
  in_flight : list pystr;
  consumed : Z;
  driver : Driver B;
  main_exit : option (result unit)
}.
Arguments unread {B} _.
Arguments source_exn {B} _.
Arguments in_flight {B} _.
Arguments consumed {B} _.
Arguments driver {B} _.
Arguments main_exit {B} _.

Section Pipeline.

Context {B : Type} {builder_ops : DatasetBuilder B}.
Variable fix_text : pystr -> pystr.
Variable args : Args.
Variable tokenizer : Tokenizer.
Variable files : filesystem.

Local Open Scope py_scope.

(** The state once the semaphore and the builders exist and nothing has
    been read. *)
Definition launch (fnames : list string) : option (Pipeline B) :=
  match (new_semaphore (10000 + workers args) >>
         make_builders args tokenizer) fresh_driver with
  | (Ok _, st) =>
      Some {| unread := fnames; source_exn := None; in_flight := [];
              consumed := 0; driver := st; main_exit := None |}
  | _ => None
  end.

Definition exit_of (r : result unit) : option (result unit) :=
  match r with Ok _ => None | _ => Some r end.

Inductive step : Pipeline B -> Pipeline B -> Prop :=
| source_skip p fname rest :
    unread p = fname :: rest ->
    yielder files fname = Ok None ->
    step p {| unread := rest; source_exn := source_exn p;
              in_flight := in_flight p; consumed := consumed p;
              driver := driver p; main_exit := main_exit p |}
| source_yield p fname rest f :
    unread p = fname :: rest ->
    yielder files fname = Ok (Some f) ->
    0 < semaphore (driver p) ->
    step p {| unread := rest; source_exn := source_exn p;
              in_flight := in_flight p ++ [f]; consumed := consumed p;
              driver := set_semaphore (semaphore (driver p) - 1) (driver p);
              main_exit := main_exit p |}
| source_raise p fname rest e :
    unread p = fname :: rest ->
    yielder files fname = Raise e ->
    step p {| unread := []; source_exn := Some e;
              in_flight := in_flight p; consumed := consumed p;
              driver := driver p; main_exit := main_exit p |}
| driver_consume p f queue item r st' :
    main_exit p = None ->
    in_flight p = f :: queue ->
    encode fix_text args tokenizer f = Ok item ->
    consume args (consumed p + 1) item (driver p) = (r, st') ->
    step p {| unread := unread p; source_exn := source_exn p;
              in_flight := queue; consumed := consumed p + 1;
              driver := st'; main_exit := exit_of r |}
| driver_encode_raise p f queue e :
    main_exit p = None ->
    in_flight p = f :: queue ->
    encode fix_text args tokenizer f = Raise e ->
    step p {| unread := unread p; source_exn := source_exn p;
              in_flight := in_flight p; consumed := consumed p;
              driver := driver p; main_exit := Some (Raise e) |}
| driver_source_raise p e :
    main_exit p = None ->
    in_flight p = [] ->
    source_exn p = Some e ->
    step p {| unread := unread p; source_exn := source_exn p;
              in_flight := []; consumed := consumed p;
              driver := driver p; main_exit := Some (Raise e) |}
| driver_finalize p r st' :
    main_exit p = None ->
    unread p = [] ->
    in_flight p = [] ->
    source_exn p = None ->
    finalize_all args (driver p) = (r, st') ->
    step p {| unread := []; source_exn := None; in_flight := [];
              consumed := consumed p; driver := st'; main_exit := Some r |}.

Inductive reachable (fnames : list string) : Pipeline B -> Prop :=
| reach_launch p : launch fnames = Some p -> reachable fnames p
| reach_step p p' : reachable fnames p -> step p p' -> reachable fnames p'.

End Pipeline.

(** What the specification says normalization does to one character. *)
Definition sanitize_char (c : N) : N :=
  if (c =? chr_space)%N then SPACE_TOKEN
  else if (c =? chr_tab)%N then TAB_TOKEN
  else if (c =? chr_newline)%N then NEWLINE_TOKEN
  else c.

Definition is_whitespace (c : N) : Prop :=
  c = chr_space \/ c = chr_tab \/ c = chr_newline.

(** The text [encode] tokenizes and measures. *)
Definition repaired (fix_text : pystr -> pystr) (args : Args) (text : pystr)
  : pystr :=
  if ftfy args then fix_text text else text.

(** The document a readable file holds once it is read by [read]. *)
Definition document_of (raw : list byte) : pystr :=
  sanitize (universal_newlines (utf8_decode_ignore (map Byte.to_N raw))).

(** ** Example inputs *)

(** A character-level tokenizer: the code points are the token ids, and 0
    ends a document. *)
Definition char_tokenizer : Tokenizer :=
  {| tokenize := map Z.of_N; eod := 0; vocab_size := 512 |}.

Definition example_args (keys : list string) (eod_flag ftfy_flag : bool) : Args :=
  {| input := "corpus"; json_keys := keys; num_docs := None;
     append_eod := eod_flag; ftfy := ftfy_flag; output_prefix := "out";
     dataset_impl := "mmap"; workers := 1; log_interval := 100 |}.

(** A stand-in for the text repair: it deletes the characters below
    U+0009. *)
Definition drop_controls (text : pystr) : pystr :=
  List.filter (fun c => (9 <=? c)%N) text.

Definition ascii_bytes (s : string) : list byte :=
  String.list_byte_of_string s.

(** The three files of the end-to-end scenario of the specification. *)
Definition scenario_walk : list (string * list string) :=
  [("corpus"%string, ["f1"; "f2"; "f3"]%string)].

Definition scenario_files : filesystem :=
  <["corpus/f1"%string := ascii_bytes "hello world"]>
  (<["corpus/f2"%string := ascii_bytes ""]>
  (<["corpus/f3"%string := [x66; x6f; x6f; x09; x62; x61; x72]%byte]> ∅)).

(** The same directory when the second file cannot be opened. *)
Definition broken_files : filesystem :=
  delete "corpus/f2"%string scenario_files.

(** A file holding the bytes of "a", an invalid byte 0xFF, and "b". *)
Definition undecodable_files : filesystem :=
  <["corpus/f1"%string := [x61; xff; x62]%byte]> ∅.

(** The driver of the scenario once its semaphore and builders exist. *)
Definition scenario_args : Args := example_args ["text"%string] true false.

Definition ready_driver : Driver IndexedBuilder :=
  snd ((bind (new_semaphore (10000 + workers scenario_args))
             (fun _ => make_builders scenario_args char_tokenizer))
         fresh_driver).

(** The pipeline of the scenario at its start, and once the source has
    yielded the first document. *)
Definition scenario_start : Pipeline IndexedBuilder :=
  {| unread := list_fnames id scenario_walk; source_exn := None;
     in_flight := []; consumed := 0; driver := ready_driver;
     main_exit := None |}.

Definition scenario_one_in_flight : Pipeline IndexedBuilder :=
  {| unread := ["corpus/f2"; "corpus/f3"]%string; source_exn := None;
     in_flight := [document_of (ascii_bytes "hello world")]; consumed := 0;
     driver := set_semaphore 10000 ready_driver; main_exit := None |}.

(** The characters [sanitize] writes in place of white space. *)
Definition is_sentinel (c : N) : Prop :=
  c = SPACE_TOKEN \/ c = TAB_TOKEN \/ c = NEWLINE_TOKEN.

(** The entry [encode] stores under every key for a text whose
    tokenization does not make it fail. *)
Definition sequences_of (args : Args) (tokenizer : Tokenizer) (text : pystr)
  : list (list Z) :=
  match tokenize tokenizer text with
  | [] => []
  | t :: ts =>
      if append_eod args then [(t :: ts) ++ [eod tokenizer]] else [t :: ts]
  end.

(** The documents of the files that can be opened, in the order of the
    names. *)
Definition documents_of (files : filesystem) (fnames : list string)
  : list pystr :=
  flat_map (fun f => match files !! f with
                     | Some raw => [document_of raw]
                     | None => []
                     end) fnames.

(** The sum of the character counts [encode] reports for a list of
    documents. *)
Definition total_len (fix_text : pystr -> pystr) (args : Args)
  (docs : list pystr) : Z :=
  fold_right (fun d acc => len (repaired fix_text args d) + acc) 0 docs.

(** A builder none of whose methods waits for ever. *)
Definition nonblocking_builder (B : Type) {builder_ops : DatasetBuilder B}
  : Prop :=
  (forall out impl vocab, make_builder out impl vocab <> Blocks)
  /\ (forall (b : B) seq, add_item b seq <> Blocks)
  /\ (forall b : B, end_document b <> Blocks)
  /\ (forall (b : B) idx, finalize b idx <> Blocks).

(** Statements that return or raise from every state. *)
Definition never_blocks {B A} (m : M B A) : Prop :=
  forall st, fst (m st) <> Blocks.

(** The single-process run of [main] up to the end of a prefix of the
    file names: set-up, then the loop over those files. *)
Definition main_inline_until {B : Type} {builder_ops : DatasetBuilder B}
  (fix_text : pystr -> pystr) (args : Args) (tokenizer : Tokenizer)
  (files : filesystem) (fnames : list string) : result unit * Driver B :=
  (new_semaphore (10000 + workers args) >>
   make_builders args tokenizer >>
   drain fix_text args tokenizer files fnames 1)%py fresh_driver.

(** The part of the loop body that writes a result to the builders. *)
Definition route {B : Type} {builder_ops : DatasetBuilder B} (doc : encoded)
  : M B unit :=
  (for_each doc (fun '(key, sentences) =>
     for_each sentences (fun sentence =>
       call_builder key (fun b => add_item b sentence)) >>
     call_builder key end_document))%py.








(** The arguments of the scenario with a log interval of 0. *)
Definition zero_interval_args : Args :=
  {| input := "corpus"; json_keys := ["text"%string]; num_docs := None;
     append_eod := true; ftfy := false; output_prefix := "out";
     dataset_impl := "mmap"; workers := 1; log_interval := 0 |}.

(** * Properties *)

(** ** Normalization *)

Lemma sanitize_pointwise (text : pystr) :
  sanitize text = map sanitize_char text.
Proof.
  unfold sanitize, str_replace. rewrite !map_map.
  apply map_ext. intros c. unfold sanitize_char.
  destruct (N.eqb_spec c chr_space) as [->|Hs]; [reflexivity|].
  destruct (N.eqb_spec c chr_tab) as [->|Ht]; [reflexivity|].
  destruct (N.eqb_spec c chr_newline) as [->|Hn]; [reflexivity|].
  destruct (N.eqb_spec c chr_tab) as [?|_]; [contradiction|].
  destruct (N.eqb_spec c chr_space) as [?|_]; [contradiction|].
  reflexivity.
Qed.

Lemma sanitize_char_not_whitespace (c : N) : ~ is_whitespace (sanitize_char c).
Proof.
  unfold sanitize_char, is_whitespace.
  destruct (N.eqb_spec c chr_space) as [->|Hs];
    [vm_compute; intros [H|[H|H]]; discriminate H|].
  destruct (N.eqb_spec c chr_tab) as [->|Ht];
    [vm_compute; intros [H|[H|H]]; discriminate H|].
  destruct (N.eqb_spec c chr_newline) as [->|Hn];
    [vm_compute; intros [H|[H|H]]; discriminate H|].
  intros [H|[H|H]]; contradiction.
Qed.

(** C9. For every input string the output of [sanitize] has the same
    length, holds no space, tab or newline character, and is the input with
    each space, tab and newline replaced by its own sentinel (the three
    sentinels being pairwise distinct) and every other character kept. *)
Theorem sanitize_replaces_whitespace (text : pystr) :
  sanitize text = map sanitize_char text
  /\ length (sanitize text) = length text
  /\ Forall (fun c => ~ is_whitespace c) (sanitize text)
  /\ NoDup [SPACE_TOKEN; TAB_TOKEN; NEWLINE_TOKEN]
  /\ (forall c, ~ is_whitespace c -> sanitize_char c = c).
Proof.
  split; [apply sanitize_pointwise|].
  split; [rewrite sanitize_pointwise; apply length_map|].
  split.
  - rewrite sanitize_pointwise. apply Forall_forall. intros c Hc.
    apply list_elem_of_In, in_map_iff in Hc. destruct Hc as [c0 [<- _]].
    apply sanitize_char_not_whitespace.
  - split.
    + repeat constructor; vm_compute; intros H; inversion H; subst;
        repeat match goal with
               | X : _ ∈ _ :: _ |- _ => inversion X; clear X; subst
               | X : _ ∈ [] |- _ => inversion X
               end.
    + intros c Hc. unfold sanitize_char, is_whitespace in *.
      destruct (N.eqb_spec c chr_space); [tauto|].
      destruct (N.eqb_spec c chr_tab); [tauto|].
      destruct (N.eqb_spec c chr_newline); [tauto|].
      reflexivity.
Qed.

(** ** The encoder *)

Lemma dict_get_set_eq {V} (d : list (string * V)) key v :
  dict_get (dict_set d key v) key = Some v.
Proof.
  induction d as [|[k w] d IH]; simpl.
  - rewrite String.eqb_refl. reflexivity.
  - destruct (String.eqb k key) eqn:E; simpl; rewrite E; auto.
Qed.

Lemma dict_get_set_ne {V} (d : list (string * V)) key key' v :
  key <> key' -> dict_get (dict_set d key v) key' = dict_get d key'.
Proof.
  intros Hne. induction d as [|[k w] d IH]; simpl.
  - destruct (String.eqb_spec key key'); [contradiction|reflexivity].
  - destruct (String.eqb_spec k key) as [->|Hk]; simpl.
    + destruct (String.eqb_spec key key'); [contradiction|reflexivity].
    + destruct (String.eqb_spec k key'); auto.
Qed.

Lemma len_positive {A} (l : list A) :
  (0 <? len l) = match l with [] => false | _ :: _ => true end.
Proof. destruct l; unfold len; simpl; [reflexivity|]. apply Z.ltb_lt. lia. Qed.

Section EncoderFacts.

Variable fix_text : pystr -> pystr.
Variable args : Args.
Variable tokenizer : Tokenizer.

(** The four cases of one loop iteration. *)
Lemma encode_key_cases (text : pystr) :
  encode_key args tokenizer text =
    match tokenize tokenizer text, append_eod args with
    | [], true => Raise IndexError
    | [], false => Ok []
    | t :: ts, true => Ok [(t :: ts) ++ [eod tokenizer]]
    | t :: ts, false => Ok [t :: ts]
    end.
Proof.
  unfold encode_key. rewrite len_positive.
  destruct (tokenize tokenizer text), (append_eod args); reflexivity.
Qed.

Lemma encode_key_length (text : pystr) seqs :
  encode_key args tokenizer text = Ok seqs -> (length seqs <= 1)%nat.
Proof.
  rewrite encode_key_cases.
  destruct (tokenize tokenizer text), (append_eod args);
    intros H; inversion H; simpl; lia.
Qed.

Lemma encode_keys_origin (text : pystr) keys :
  forall ids ids' key seqs,
    encode_keys args tokenizer text keys ids = Ok ids' ->
    dict_get ids' key = Some seqs ->
    dict_get ids key = Some seqs \/ encode_key args tokenizer text = Ok seqs.
Proof.
  induction keys as [|k keys IH]; simpl; intros ids ids' key seqs Hrun Hget.
  - inversion Hrun; subst. auto.
  - destruct (encode_key args tokenizer text) as [v| |] eqn:Ev; try discriminate.
    destruct (IH _ _ _ _ Hrun Hget) as [H|H]; [|auto].
    destruct (String.eqb_spec k key) as [->|Hne].
    + rewrite dict_get_set_eq in H. right. congruence.
    + rewrite dict_get_set_ne in H by assumption. auto.
Qed.

Lemma encode_keys_keep (text : pystr) v key keys :
  encode_key args tokenizer text = Ok v ->
  forall ids, dict_get ids key = Some v ->
  exists ids', encode_keys args tokenizer text keys ids = Ok ids'
               /\ dict_get ids' key = Some v.
Proof.
  intros Ev. induction keys as [|k keys IH]; simpl; intros ids Hget.
  - eauto.
  - rewrite Ev. apply IH.
    destruct (String.eqb_spec k key) as [->|Hne].
    + apply dict_get_set_eq.
    + rewrite dict_get_set_ne; assumption.
Qed.

Lemma encode_keys_stored (text : pystr) v key keys :
  encode_key args tokenizer text = Ok v ->
  In key keys ->
  forall ids,
  exists ids', encode_keys args tokenizer text keys ids = Ok ids'
               /\ dict_get ids' key = Some v.
Proof.
  intros Ev. induction keys as [|k keys IH]; simpl; intros Hin ids.
  - contradiction.
  - rewrite Ev. destruct Hin as [->|Hin].
    + apply encode_keys_keep; [assumption|apply dict_get_set_eq].
    + apply IH. assumption.
Qed.

Lemma encode_keys_raises (text : pystr) e key keys ids :
  encode_key args tokenizer text = Raise e ->
  encode_keys args tokenizer text (key :: keys) ids = Raise e.
Proof. intros Ev. simpl. rewrite Ev. reflexivity. Qed.

Lemma encode_second (text : pystr) ids n :
  encode fix_text args tokenizer text = Ok (ids, n) ->
  n = len (repaired fix_text args text)
  /\ encode_keys args tokenizer (repaired fix_text args text) (json_keys args) []
     = Ok ids.
Proof.
  unfold encode, repaired.
  destruct (encode_keys _ _ _ _ _) as [ids0| |]; intros H; inversion H; auto.
Qed.

End EncoderFacts.

(** C10. When [encode] returns, every configured key is mapped to a list
    of at most one token sequence. *)
Theorem encode_at_most_one_sequence
  (fix_text : pystr -> pystr) (args : Args) (tokenizer : Tokenizer)
  (text : pystr) (ids : encoded) (n : Z) (key : string) :
  encode fix_text args tokenizer text = Ok (ids, n) ->
  In key (json_keys args) ->
  exists seqs, dict_get ids key = Some seqs /\ (length seqs <= 1)%nat.
Proof.
  intros Hrun Hin. apply encode_second in Hrun. destruct Hrun as [_ Hkeys].
  destruct (encode_key args tokenizer (repaired fix_text args text))
    as [v|e|] eqn:Ev.
  - destruct (encode_keys_stored args tokenizer _ v key _ Ev Hin [])
      as [ids' [Hrun' Hget]].
    rewrite Hkeys in Hrun'. inversion Hrun'; subst ids'.
    exists v. split; [assumption|]. eapply encode_key_length; eassumption.
  - destruct (json_keys args) as [|k ks]; [contradiction|].
    simpl in Hkeys. rewrite Ev in Hkeys. discriminate.
  - destruct (json_keys args) as [|k ks]; [contradiction|].
    simpl in Hkeys. rewrite Ev in Hkeys. discriminate.
Qed.

Lemma encode_at_most_one_sequence_witness :
  encode id (example_args ["text"%string] true false) char_tokenizer
         [104; 105]%N
  = Ok ([("text"%string, [[104; 105; 0]])], 2)
  /\ In "text"%string (json_keys (example_args ["text"%string] true false))
  /\ exists seqs,
       dict_get [("text"%string, [[104; 105; 0]])] "text" = Some seqs
       /\ (length seqs <= 1)%nat.
Proof.
  split; [reflexivity|]. split; [left; reflexivity|].
  apply (encode_at_most_one_sequence id
           (example_args ["text"%string] true false) char_tokenizer
           [104; 105]%N _ 2 "text").
  - reflexivity.
  - left; reflexivity.
Defined.

(** C7. With end-of-document marking enabled, a document whose
    tokenization is not empty is encoded, and each configured key is
    mapped to the single sequence made of the tokenizer's output followed
    by the end-of-document id. *)
Theorem encode_appends_eod
  (fix_text : pystr -> pystr) (args : Args) (tokenizer : Tokenizer)
  (text : pystr) (key : string) :
  append_eod args = true ->
  In key (json_keys args) ->
  tokenize tokenizer (repaired fix_text args text) <> [] ->
  exists ids,
    encode fix_text args tokenizer text
    = Ok (ids, len (repaired fix_text args text))
    /\ dict_get ids key
       = Some [tokenize tokenizer (repaired fix_text args text)
               ++ [eod tokenizer]]
    /\ (forall seqs, dict_get ids key = Some seqs ->
        exists body, last seqs = Some (body ++ [eod tokenizer])).
Proof.
  intros Heod Hin Htoks.
  assert (Ev : encode_key args tokenizer (repaired fix_text args text)
               = Ok [tokenize tokenizer (repaired fix_text args text)
                     ++ [eod tokenizer]]).
  { rewrite encode_key_cases, Heod.
    destruct (tokenize tokenizer (repaired fix_text args text));
      [contradiction|reflexivity]. }
  destruct (encode_keys_stored args tokenizer _ _ key _ Ev Hin [])
    as [ids [Hrun Hget]].
  exists ids. split; [|split].
  - unfold encode. fold (repaired fix_text args text). rewrite Hrun.
    reflexivity.
  - assumption.
  - intros seqs Hs. rewrite Hget in Hs. inversion Hs; subst.
    eexists. reflexivity.
Qed.

Lemma encode_appends_eod_witness :
  append_eod (example_args ["text"; "label"]%string true false) = true
  /\ In "label"%string (json_keys (example_args ["text"; "label"]%string true false))
  /\ tokenize char_tokenizer [104; 105]%N <> []
  /\ exists ids,
       encode id (example_args ["text"; "label"]%string true false)
              char_tokenizer [104; 105]%N
       = Ok (ids, 2)
       /\ dict_get ids "label" = Some [[104; 105; 0]].
Proof.
  split; [reflexivity|]. split; [right; left; reflexivity|].
  split; [discriminate|].
  destruct (encode_appends_eod id
              (example_args ["text"; "label"]%string true false)
              char_tokenizer [104; 105]%N "label")
    as [ids [Hrun [Hget _]]].
  - reflexivity.
  - right; left; reflexivity.
  - discriminate.
  - exists ids. split; assumption.
Defined.

(** An empty tokenization with end-of-document marking enabled: the loop
    indexes the empty [doc_ids]. *)
Lemma encode_empty_tokenization_eod
  (fix_text : pystr -> pystr) (args : Args) (tokenizer : Tokenizer)
  (text : pystr) :
  tokenize tokenizer (repaired fix_text args text) = [] ->
  json_keys args <> [] ->
  encode fix_text args tokenizer text =
    if append_eod args then Raise IndexError
    else Ok (fold_left (fun d k => dict_set d k []) (json_keys args) [],
             len (repaired fix_text args text)).
Proof.
  intros Htoks Hkeys. unfold encode. fold (repaired fix_text args text).
  pose proof (encode_key_cases args tokenizer (repaired fix_text args text))
    as Ev. rewrite Htoks in Ev.
  destruct (append_eod args).
  - destruct (json_keys args) as [|k ks]; [contradiction|].
    rewrite (encode_keys_raises _ _ _ _ _ _ _ Ev). reflexivity.
  - assert (Hall : forall keys ids,
               encode_keys args tokenizer (repaired fix_text args text) keys ids
               = Ok (fold_left (fun d k => dict_set d k []) keys ids)).
    { induction keys as [|k ks IH]; simpl; intros ids; [reflexivity|].
      rewrite Ev. apply IH. }
    rewrite Hall. reflexivity.
Qed.

(** C1. On the empty document, whose tokenization is empty, [encode]
    raises [IndexError] when end-of-document marking is enabled, and
    returns the key mapped to an empty list when it is disabled. *)
Theorem encode_empty_document :
  encode id (example_args ["text"%string] true false) char_tokenizer []
  = Raise IndexError
  /\ encode id (example_args ["text"%string] false false) char_tokenizer []
     = Ok ([("text"%string, [])], 0).
Proof. split; reflexivity. Qed.

Lemma byte_length_ascii (text : pystr) :
  Forall (fun c => (c < 0x80)%N) text -> byte_length text = len text.
Proof.
  unfold len. induction 1 as [|c text Hc _ IH]; [reflexivity|].
  cbn [byte_length fold_right length]. fold (byte_length text). rewrite IH.
  unfold utf8_width. apply N.ltb_lt in Hc. rewrite Hc. lia.
Qed.

Lemma byte_length_at_least_len (text : pystr) : len text <= byte_length text.
Proof.
  unfold len. induction text as [|c text IH]; [reflexivity|].
  cbn [byte_length fold_right length]. fold (byte_length text).
  unfold utf8_width.
  destruct (c <? 0x80)%N, (c <? 0x800)%N, (c <? 0x10000)%N; lia.
Qed.

(** C3, as stated, fails: on the one-character document "▁" (the
    sentinel [sanitize] writes for a space, three bytes long in UTF-8)
    [encode] returns 1. *)
Lemma encode_length_is_not_byte_length :
  ~ (forall ids n,
       encode id (example_args ["text"%string] false false) char_tokenizer
              [SPACE_TOKEN] = Ok (ids, n) ->
       n = byte_length [SPACE_TOKEN]).
Proof.
  intros H.
  specialize (H [("text"%string, [[9601]])] 1 eq_refl).
  vm_compute in H. discriminate H.
Qed.

(** C3, amended. When [encode] returns, the second component of the pair
    is the number of characters of the text after the optional repair
    (the input itself when the repair is off); it is the byte length of
    that text when the text is ASCII only. *)
Theorem encode_returns_character_count
  (fix_text : pystr -> pystr) (args : Args) (tokenizer : Tokenizer)
  (text : pystr) (ids : encoded) (n : Z) :
  encode fix_text args tokenizer text = Ok (ids, n) ->
  n = len (repaired fix_text args text)
  /\ (ftfy args = false -> n = len text)
  /\ (Forall (fun c => (c < 0x80)%N) (repaired fix_text args text) ->
      n = byte_length (repaired fix_text args text)).
Proof.
  intros Hrun. apply encode_second in Hrun. destruct Hrun as [-> _].
  split; [reflexivity|]. split.
  - intros Hoff. unfold repaired. rewrite Hoff. reflexivity.
  - intros Hascii. symmetry. apply byte_length_ascii. assumption.
Qed.

Lemma encode_returns_character_count_witness :
  encode drop_controls (example_args ["text"%string] true true) char_tokenizer
         [104; 1; 105]%N
  = Ok ([("text"%string, [[104; 105; 0]])], 2)
  /\ 2 = len (repaired drop_controls (example_args ["text"%string] true true)
                       [104; 1; 105]%N).
Proof.
  split; [reflexivity|].
  destruct (encode_returns_character_count drop_controls
              (example_args ["text"%string] true true) char_tokenizer
              [104; 1; 105]%N [("text"%string, [[104; 105; 0]])] 2)
    as [Hlen _]; [reflexivity|exact Hlen].
Defined.

(** ** The document source *)

Section SourceFacts.

Variable files : filesystem.

Lemma read_readable fname raw :
  files !! fname = Some raw -> read files fname = Ok (document_of raw).
Proof. intros H. unfold read. rewrite H. reflexivity. Qed.

Lemma read_unreadable fname :
  files !! fname = None -> read files fname = Raise (OSError fname).
Proof. intros H. unfold read. rewrite H. reflexivity. Qed.

Lemma yielder_events_readable fname raw :
  files !! fname = Some raw ->
  yielder_events files fname =
    Ok (if truthy (document_of raw)
        then [Acquire; Yield (document_of raw)] else []).
Proof.
  intros H. unfold yielder_events, yielder. rewrite (read_readable _ _ H).
  simpl. destruct (truthy (document_of raw)); reflexivity.
Qed.

Lemma yielder_events_unreadable fname :
  files !! fname = None -> yielder_events files fname = Raise (OSError fname).
Proof.
  intros H. unfold yielder_events, yielder. rewrite (read_unreadable _ H).
  reflexivity.
Qed.

Lemma yield_from_cons_readable fname raw rest :
  files !! fname = Some raw ->
  yield_from files (fname :: rest) =
    ((if truthy (document_of raw)
      then [Acquire; Yield (document_of raw)] else [])
       ++ fst (yield_from files rest),
     snd (yield_from files rest)).
Proof.
  intros H. simpl. rewrite (yielder_events_readable _ _ H).
  destruct (yield_from files rest). reflexivity.
Qed.

Lemma yield_from_cons_unreadable fname rest :
  files !! fname = None ->
  yield_from files (fname :: rest) = ([], Some (OSError fname)).
Proof. intros H. simpl. rewrite (yielder_events_unreadable _ H). reflexivity. Qed.

Lemma yield_from_app_readable pre rest :
  (forall f, In f pre -> is_Some (files !! f)) ->
  yield_from files (pre ++ rest) =
    (fst (yield_from files pre) ++ fst (yield_from files rest),
     snd (yield_from files rest)).
Proof.
  induction pre as [|f pre IH]; intros Hall.
  - simpl. destruct (yield_from files rest). reflexivity.
  - destruct (Hall f (or_introl eq_refl)) as [raw Hraw].
    rewrite <- app_comm_cons.
    rewrite !(yield_from_cons_readable _ _ _ Hraw).
    rewrite IH by (intros g Hg; apply Hall; right; exact Hg).
    simpl. rewrite app_assoc. reflexivity.
Qed.

Lemma yield_from_documents fnames d :
  In d (yielded (fst (yield_from files fnames))) ->
  d <> [] /\ exists fname raw,
      In fname fnames /\ files !! fname = Some raw /\ d = document_of raw.
Proof.
  induction fnames as [|f fnames IH]; [intros []|].
  destruct (files !! f) as [raw|] eqn:Hf.
  - rewrite (yield_from_cons_readable _ _ _ Hf). cbn [fst].
    unfold yielded. rewrite flat_map_app. fold yielded.
    intros Hin. apply in_app_iff in Hin. destruct Hin as [Hin|Hin].
    + destruct (document_of raw) as [|c doc] eqn:Hdoc; [destruct Hin|].
      simpl in Hin. destruct Hin as [<-|[]].
      split; [discriminate|]. exists f, raw. rewrite Hdoc. simpl. auto.
    + destruct (IH Hin) as [Hne [g [raw' [Hg [Hraw' Hd]]]]].
      split; [assumption|]. exists g, raw'. simpl. auto.
  - rewrite (yield_from_cons_unreadable _ _ Hf). intros [].
Qed.

Lemma yield_from_acquires fnames :
  acquires (fst (yield_from files fnames))
  = length (yielded (fst (yield_from files fnames))).
Proof.
  induction fnames as [|f fnames IH]; [reflexivity|].
  destruct (files !! f) as [raw|] eqn:Hf.
  - rewrite (yield_from_cons_readable _ _ _ Hf). cbn [fst].
    unfold acquires, yielded in *.
    rewrite List.filter_app, flat_map_app, !length_app, IH.
    destruct (truthy (document_of raw)); reflexivity.
  - rewrite (yield_from_cons_unreadable _ _ Hf). reflexivity.
Qed.

End SourceFacts.

(** C8. A file whose content is empty after normalization makes the
    source neither take a permit nor yield; every document the source
    yields is the non-empty normalized content of one of the files, and
    one permit is taken per yielded document. *)
Theorem source_skips_empty_documents
  (shuffle : list string -> list string) (files : filesystem)
  (walk : list (string * list string)) :
  (forall fname,
      read files fname = Ok [] ->
      yielder files fname = Ok None /\ yielder_events files fname = Ok [])
  /\ (forall d,
        In d (yielded (fst (yield_from_files shuffle files walk))) ->
        d <> [] /\ exists fname raw,
            In fname (list_fnames shuffle walk)
            /\ files !! fname = Some raw /\ d = document_of raw)
  /\ acquires (fst (yield_from_files shuffle files walk))
     = length (yielded (fst (yield_from_files shuffle files walk))).
Proof.
  split; [|split].
  - intros fname Hread. unfold yielder_events, yielder. rewrite Hread.
    split; reflexivity.
  - intros d. apply yield_from_documents.
  - apply yield_from_acquires.
Qed.

Lemma source_skips_empty_documents_witness :
  read scenario_files "corpus/f2" = Ok []
  /\ yielder_events scenario_files "corpus/f2" = Ok []
  /\ yielded (fst (yield_from_files id scenario_files scenario_walk))
     = [document_of (ascii_bytes "hello world");
        document_of [x66; x6f; x6f; x09; x62; x61; x72]%byte].
Proof.
  split; [reflexivity|]. split; [|reflexivity].
  apply (source_skips_empty_documents id scenario_files scenario_walk).
  reflexivity.
Defined.

(** C6, as stated, fails: when the second of three files cannot be
    opened, the source raises at that file, the third file is never read,
    and the run ends with the exception. *)
Lemma unopenable_file_ends_the_run :
  yield_from_files id broken_files scenario_walk
  = ([Acquire; Yield (document_of (ascii_bytes "hello world"))],
     Some (OSError "corpus/f2"))
  /\ fst (main_inline (B := IndexedBuilder) id
            (example_args ["text"%string] true false) char_tokenizer
            id broken_files scenario_walk)
     = Raise (OSError "corpus/f2").
Proof. split; vm_compute; reflexivity. Qed.

Section UnreadableFile.

Context {B : Type} {builder_ops : DatasetBuilder B}.
Variable fix_text : pystr -> pystr.
Variable args : Args.
Variable tokenizer : Tokenizer.
Variable files : filesystem.

(** The loop over the files ends at the first file that cannot be
    opened, unless it has ended before. *)
Lemma drain_unreadable pre fname post :
  files !! fname = None ->
  forall i (st : Driver B),
    drain fix_text args tokenizer files (pre ++ fname :: post) i st =
      match drain fix_text args tokenizer files pre i st with
      | (Ok _, st1) => (Raise (OSError fname), st1)
      | other => other
      end.
Proof.
  intros Hf. induction pre as [|f pre IH]; intros i st.
  - cbn [app drain]. unfold bind, lift, yielder.
    rewrite (read_unreadable _ _ Hf). reflexivity.
  - cbn [app drain]. unfold bind, lift.
    destruct (yielder files f) as [[d|]|e|]; [|apply IH|reflexivity..].
    destruct (acquire st) as [[[]|e|] st1]; [|reflexivity..].
    destruct (encode fix_text args tokenizer d) as [item|e|]; [|reflexivity..].
    destruct (consume args i item st1) as [[[]|e|] st2]; [|reflexivity..].
    apply IH.
Qed.

Lemma main_inline_unreadable shuffle walk pre fname post :
  files !! fname = None ->
  list_fnames shuffle walk = pre ++ fname :: post ->
  main_inline fix_text args tokenizer shuffle files walk =
    match main_inline_until fix_text args tokenizer files pre with
    | (Ok _, st) => (Raise (OSError fname), st)
    | other => other
    end.
Proof.
  intros Hf Hsplit. unfold main_inline, main_inline_until.
  rewrite Hsplit. unfold bind at 1 4.
  destruct (new_semaphore _ fresh_driver) as [[[]|e|] st1]; [|reflexivity..].
  unfold bind at 1 3.
  destruct (make_builders args tokenizer st1) as [[[]|e|] st2];
    [|reflexivity..].
  unfold bind at 1. rewrite (drain_unreadable _ _ _ Hf).
  destruct (drain fix_text args tokenizer files pre 1 st2)
    as [[[]|e|] st3]; reflexivity.
Qed.

End UnreadableFile.

(** C6, amended. A file that can be opened never makes the source fail,
    whatever its bytes: bytes that cannot be decoded are dropped, the
    document is yielded when it is not empty, and the source continues
    with the remaining files. A file that cannot be opened raises
    [OSError], which ends the source at that file: the documents of the
    files before it have been yielded, the files after it are not read,
    and the single-process run cannot complete: it ends with that
    [OSError], in the state reached after the files before it, unless the
    set-up or one of those files has already ended it with another
    outcome. *)
Theorem source_read_failures
  (files : filesystem) (pre : list string) (fname : string)
  (post : list string) :
  (forall f, In f pre -> is_Some (files !! f)) ->
  match files !! fname with
  | Some raw =>
      read files fname = Ok (document_of raw)
      /\ yield_from files (pre ++ fname :: post) =
           (fst (yield_from files pre)
              ++ (if truthy (document_of raw)
                  then [Acquire; Yield (document_of raw)] else [])
              ++ fst (yield_from files post),
            snd (yield_from files post))
  | None =>
      read files fname = Raise (OSError fname)
      /\ yield_from files (pre ++ fname :: post) =
           (fst (yield_from files pre), Some (OSError fname))
      /\ forall (B : Type) (builder_ops : DatasetBuilder B)
                (fix_text : pystr -> pystr) (args : Args)
                (tokenizer : Tokenizer)
                (shuffle : list string -> list string)
                (walk : list (string * list string)),
           list_fnames shuffle walk = pre ++ fname :: post ->
           main_inline (B := B) fix_text args tokenizer shuffle files walk =
             match main_inline_until (B := B) fix_text args tokenizer files pre
             with
             | (Ok _, st) => (Raise (OSError fname), st)
             | other => other
             end
           /\ fst (main_inline (B := B) fix_text args tokenizer shuffle
                     files walk) <> Ok tt
  end.
Proof.
  intros Hpre. rewrite (yield_from_app_readable _ _ _ Hpre).
  destruct (files !! fname) as [raw|] eqn:Hf.
  - split; [apply read_readable; assumption|].
    rewrite (yield_from_cons_readable _ _ _ _ Hf). reflexivity.
  - split; [apply read_unreadable; assumption|]. split.
    + rewrite (yield_from_cons_unreadable _ _ _ Hf). cbn [fst snd].
      rewrite app_nil_r. reflexivity.
    + intros B builder_ops fix_text args tokenizer shuffle walk Hsplit.
      pose proof (main_inline_unreadable fix_text args tokenizer files
                    shuffle walk pre fname post Hf Hsplit) as Hrun.
      split; [exact Hrun|]. rewrite Hrun.
      destruct (main_inline_until fix_text args tokenizer files pre)
        as [[[]|e|] st]; discriminate.
Qed.

Lemma source_read_failures_witness :
  (forall f, In f ["corpus/f1"%string] -> is_Some (broken_files !! f))
  /\ yield_from broken_files
       (["corpus/f1"%string] ++ "corpus/f2"%string :: ["corpus/f3"%string])
     = (fst (yield_from broken_files ["corpus/f1"%string]),
        Some (OSError "corpus/f2"))
  /\ main_inline (B := IndexedBuilder) id scenario_args char_tokenizer id
       broken_files scenario_walk
     = (Raise (OSError "corpus/f2"),
        snd (main_inline_until (B := IndexedBuilder) id scenario_args
               char_tokenizer broken_files ["corpus/f1"%string]))
  /\ yield_from undecodable_files ([] ++ "corpus/f1"%string :: [])
     = ([Acquire; Yield [97; 98]%N], None).
Proof.
  assert (Hpre : forall f, In f ["corpus/f1"%string] ->
                           is_Some (broken_files !! f)).
  { intros f [<-|[]]. eexists. reflexivity. }
  split; [exact Hpre|]. split; [|split].
  - exact (proj1 (proj2 (source_read_failures broken_files
                           ["corpus/f1"%string] "corpus/f2"
                           ["corpus/f3"%string] Hpre))).
  - destruct (proj2 (proj2 (source_read_failures broken_files
                              ["corpus/f1"%string] "corpus/f2"
                              ["corpus/f3"%string] Hpre))
                IndexedBuilder indexed_builder id scenario_args
                char_tokenizer id scenario_walk eq_refl) as [Hrun _].
    rewrite Hrun. vm_compute. reflexivity.
  - exact (proj2 (source_read_failures undecodable_files [] "corpus/f1" []
                    (fun f (H : In f []) => match H with end))).
Defined.

(** ** The driver and its semaphore *)

Section DriverFacts.

Context {B : Type} {builder_ops : DatasetBuilder B}.
Variable fix_text : pystr -> pystr.
Variable args : Args.
Variable tokenizer : Tokenizer.

Lemma keeps_ret {A} (a : A) : keeps_semaphore (B := B) (ret a).
Proof. intros st. reflexivity. Qed.

Lemma keeps_lift {A} (r : result A) : keeps_semaphore (B := B) (lift r).
Proof. intros st. reflexivity. Qed.

Lemma keeps_bind {A C} (m : M B A) (k : A -> M B C) :
  keeps_semaphore m -> (forall a, keeps_semaphore (k a)) ->
  keeps_semaphore (bind m k).
Proof.
  intros Hm Hk st. unfold bind. specialize (Hm st).
  destruct (m st) as [[a|e|] st']; simpl in *; [|assumption..].
  rewrite Hk. assumption.
Qed.

Lemma keeps_for_each {A} (l : list A) (body : A -> M B unit) :
  (forall x, keeps_semaphore (body x)) -> keeps_semaphore (for_each l body).
Proof.
  intros Hbody. induction l as [|x l IH]; simpl.
  - apply keeps_ret.
  - apply keeps_bind; [apply Hbody|intros _; apply IH].
Qed.

Lemma keeps_call_builder key (method : B -> result B) :
  keeps_semaphore (call_builder key method).
Proof.
  intros st. unfold call_builder.
  destruct (builders st !! key) as [b|]; [|reflexivity].
  destruct (method b); reflexivity.
Qed.

Lemma keeps_log_progress i : keeps_semaphore (B := B) (log_progress args i).
Proof.
  intros st. unfold log_progress.
  destruct (log_interval args =? 0); [reflexivity|].
  destruct (i mod log_interval args =? 0); reflexivity.
Qed.

Lemma keeps_make_builders :
  keeps_semaphore (B := B) (make_builders args tokenizer).
Proof.
  apply keeps_for_each. intros key st. unfold make_builder_for.
  destruct (make_builder _ _ _); reflexivity.
Qed.

Lemma keeps_finalize_all : keeps_semaphore (B := B) (finalize_all args).
Proof.
  apply keeps_for_each. intros key st. unfold finalize_key.
  destruct (builders st !! key) as [b|] eqn:Hb; [|reflexivity].
  destruct (output_idx_files st !! key) as [idx|]; [|reflexivity].
  apply keeps_call_builder.
Qed.

(** The loop body releases one permit before anything in it can fail. *)
Lemma consume_semaphore i item (st : Driver B) :
  semaphore (snd (consume args i item st)) = semaphore st + 1.
Proof.
  destruct item as [doc bytes_processed]. unfold consume.
  unfold bind at 1. cbn beta iota. unfold bind at 1. unfold release at 1.
  cbn beta iota.
  match goal with
  | |- semaphore (snd (bind ?m ?k ?s)) = _ =>
      assert (Hk : keeps_semaphore (bind m k))
  end.
  { apply keeps_bind; [|intros _; apply keeps_log_progress].
    apply keeps_for_each. intros [key sentences].
    apply keeps_bind; [|intros _; apply keeps_call_builder].
    apply keeps_for_each. intros sentence. apply keeps_call_builder. }
  rewrite Hk. reflexivity.
Qed.

(** The builders [main] makes are those of the key "text". *)
Lemma make_builders_only_text key :
  key <> "text"%string ->
  builders (snd ((bind (new_semaphore (10000 + workers args))
                       (fun _ => make_builders args tokenizer))
                   fresh_driver)) !! key = None.
Proof.
  intros Hne. unfold bind, new_semaphore.
  destruct (10000 + workers args <? 0); [reflexivity|].
  unfold make_builders, for_each, bind, make_builder_for.
  destruct (make_builder _ _ _); cbn; try reflexivity.
  rewrite lookup_insert_ne by congruence. reflexivity.
Qed.

Lemma launch_semaphore fnames (p : Pipeline B) :
  launch args tokenizer fnames = Some p ->
  semaphore (driver p) = 10000 + workers args
  /\ 0 <= semaphore (driver p) /\ in_flight p = [].
Proof.
  unfold launch, bind, new_semaphore.
  destruct (10000 + workers args <? 0) eqn:Hneg; [discriminate|].
  apply Z.ltb_ge in Hneg.
  pose proof (keeps_make_builders
                (set_semaphore (10000 + workers args) fresh_driver)) as Hk.
  destruct (make_builders args tokenizer _) as [[u|e|] st]; try discriminate.
  intros H. inversion H; subst p; clear H. cbn in *.
  repeat split; [lia|lia].
Qed.

(** The permits left and the documents in flight always add up to the
    capacity of the semaphore. *)
Lemma permits_accounted files fnames (p : Pipeline B) :
  reachable fix_text args tokenizer files fnames p ->
  semaphore (driver p) + len (in_flight p) = 10000 + workers args
  /\ 0 <= semaphore (driver p).
Proof.
  induction 1 as [p Hp|p p' _ [IHsum IHpos] Hstep].
  - apply launch_semaphore in Hp. destruct Hp as [Hs [Hpos Hq]].
    rewrite Hq. unfold len; simpl. lia.
  - destruct Hstep; cbn [driver in_flight]; cbn [semaphore set_semaphore].
    + auto.
    + unfold len in *. rewrite length_app. simpl. lia.
    + auto.
    + match goal with
      | Hc : consume _ _ _ _ = (_, ?s) |- _ =>
          pose proof (consume_semaphore (consumed p + 1) item (driver p)) as Hrel;
          rewrite Hc in Hrel; cbn [snd] in Hrel
      end.
      match goal with Hq : in_flight p = _ |- _ => rewrite Hq in IHsum end.
      unfold len in *. simpl in IHsum. lia.
    + auto.
    + match goal with Hq : in_flight p = _ |- _ => rewrite Hq in IHsum end.
      auto.
    + match goal with Hq : in_flight p = _ |- _ => rewrite Hq in IHsum end.
      match goal with
      | Hf : finalize_all _ _ = (_, ?s) |- _ =>
          pose proof (keeps_finalize_all (driver p)) as Hk;
          rewrite Hf in Hk; cbn [snd] in Hk
      end.
      rewrite Hk. auto.
Qed.

End DriverFacts.

(** C5. Whatever the outcome of the loop body on an encoded result, a
    return or an exception raised by a builder, a missing key or the
    progress report, the state it leaves has one more permit: the release
    comes before every statement of the body that can fail. *)
Theorem consume_releases_on_every_path
  {B : Type} {builder_ops : DatasetBuilder B}
  (args : Args) (i : Z) (item : encoded * Z) (st st' : Driver B)
  (r : result unit) :
  consume args i item st = (r, st') ->
  semaphore st' = semaphore st + 1.
Proof.
  intros Hrun. pose proof (consume_semaphore args i item st) as Hrel.
  rewrite Hrun in Hrel. exact Hrel.
Qed.

Lemma consume_releases_on_every_path_witness :
  consume scenario_args 1 ([("label"%string, [[1]])], 1) ready_driver
  = (Raise (KeyError "label"),
     set_counters 1 0 (set_semaphore 10002 ready_driver))
  /\ semaphore (set_counters 1 0 (set_semaphore 10002 ready_driver))
     = semaphore ready_driver + 1.
Proof.
  split; [vm_compute; reflexivity|].
  apply (consume_releases_on_every_path scenario_args 1
           ([("label"%string, [[1]])], 1) ready_driver _
           (Raise (KeyError "label"))).
  vm_compute; reflexivity.
Defined.

(** C4. In every state the pipeline can reach, with any interleaving of
    the source and the driver, the documents in flight (yielded by the
    source after taking a permit, their result not yet consumed by the
    driver) number at most 10000 plus the worker count. *)
Theorem in_flight_bounded
  {B : Type} {builder_ops : DatasetBuilder B}
  (fix_text : pystr -> pystr) (args : Args) (tokenizer : Tokenizer)
  (files : filesystem) (fnames : list string) (p : Pipeline B) :
  reachable fix_text args tokenizer files fnames p ->
  len (in_flight p) <= 10000 + workers args.
Proof.
  intros Hreach.
  destruct (permits_accounted _ _ _ _ _ _ Hreach) as [Hsum Hpos]. lia.
Qed.

Lemma in_flight_bounded_witness :
  reachable id scenario_args char_tokenizer scenario_files
            (list_fnames id scenario_walk) scenario_one_in_flight
  /\ len (in_flight scenario_one_in_flight) = 1
  /\ len (in_flight scenario_one_in_flight) <= 10000 + workers scenario_args.
Proof.
  assert (Hreach : reachable id scenario_args char_tokenizer scenario_files
                     (list_fnames id scenario_walk) scenario_one_in_flight).
  { apply (reach_step _ _ _ _ _ scenario_start).
    - apply reach_launch. vm_compute; reflexivity.
    - apply (source_yield id scenario_args char_tokenizer scenario_files
               scenario_start "corpus/f1" ["corpus/f2"; "corpus/f3"]%string
               (document_of (ascii_bytes "hello world"))).
      + reflexivity.
      + vm_compute; reflexivity.
      + vm_compute; reflexivity. }
  split; [exact Hreach|]. split; [reflexivity|].
  exact (in_flight_bounded _ _ _ _ _ _ Hreach).
Defined.

(** ** The single-process run is one schedule of the pipeline *)

Section Schedule.

Context {B : Type} {builder_ops : DatasetBuilder B}.
Variable fix_text : pystr -> pystr.
Variable args : Args.
Variable tokenizer : Tokenizer.
Variable files : filesystem.

Let steps := rtc (step fix_text args tokenizer files).

(** From a state with nothing in flight, the transition system can follow
    the single-process loop over the unread files and reach its driver
    state. *)
Lemma drain_schedule (fnames : list string) :
  forall p : Pipeline B,
    unread p = fnames -> in_flight p = [] -> main_exit p = None ->
    exists p',
      steps p p'
      /\ driver p'
         = snd (drain fix_text args tokenizer files fnames (consumed p + 1)
                  (driver p)).
Proof.
  induction fnames as [|fname rest IH]; intros p Hu Hq Hm.
  - exists p. split; [apply rtc_refl|reflexivity].
  - cbn [drain]. unfold bind at 1, lift at 1.
    destruct (yielder files fname) as [[f|]|e|] eqn:Hy.
    + unfold bind at 1, acquire at 1.
      destruct (0 <? semaphore (driver p)) eqn:Hsem.
      * apply Z.ltb_lt in Hsem.
        pose proof (source_yield fix_text args tokenizer files p fname rest f
                      Hu Hy Hsem) as Hstep1.
        set (p1 := {| unread := rest |}) in Hstep1.
        unfold bind at 1, lift at 1.
        destruct (encode fix_text args tokenizer f) as [item|e|] eqn:He.
        -- unfold bind at 1.
           destruct (consume args (consumed p + 1) item
                       (set_semaphore (semaphore (driver p) - 1) (driver p)))
             as [r st'] eqn:Hc.
           assert (Hq1 : in_flight p1 = f :: []).
           { subst p1. cbn. rewrite Hq. reflexivity. }
           pose proof (driver_consume fix_text args tokenizer files p1 f []
                         item r st' Hm Hq1 He Hc) as Hstep2.
           set (p2 := {| unread := unread p1 |}) in Hstep2.
           destruct r as [[]|e|].
           ++ destruct (IH p2 eq_refl eq_refl eq_refl) as [p' [Hsteps Hd]].
              exists p'. split; [|exact Hd].
              eapply rtc_l; [exact Hstep1|]. eapply rtc_l; [exact Hstep2|].
              exact Hsteps.
           ++ exists p2. split; [|reflexivity].
              eapply rtc_l; [exact Hstep1|]. apply rtc_once. exact Hstep2.
           ++ exists p2. split; [|reflexivity].
              eapply rtc_l; [exact Hstep1|]. apply rtc_once. exact Hstep2.
        -- exists p1. split; [apply rtc_once; exact Hstep1|reflexivity].
        -- exists p1. split; [apply rtc_once; exact Hstep1|reflexivity].
      * exists p. split; [apply rtc_refl|reflexivity].
    + pose proof (source_skip fix_text args tokenizer files p fname rest
                    Hu Hy) as Hstep1.
      set (p1 := {| unread := rest |}) in Hstep1.
      destruct (IH p1 eq_refl Hq Hm) as [p' [Hsteps Hd]].
      exists p'. split; [|exact Hd].
      eapply rtc_l; [exact Hstep1|exact Hsteps].
    + exists p. split; [apply rtc_refl|reflexivity].
    + exists p. split; [apply rtc_refl|reflexivity].
Qed.

End Schedule.

(** ** Routing to the builders *)

Section RoutingFacts.

Context {B : Type} {builder_ops : DatasetBuilder B}.
Variable fix_text : pystr -> pystr.
Variable args : Args.
Variable tokenizer : Tokenizer.
Variable key : string.

Lemma preserves_bind {A C} (P : Driver B -> Prop) (m : M B A) (k : A -> M B C) :
  preserves P m -> (forall a, preserves P (k a)) -> preserves P (bind m k).
Proof.
  intros Hm Hk st HP. unfold bind. specialize (Hm st HP).
  destruct (m st) as [[a|e|] st']; simpl in *; [|assumption..].
  apply Hk. assumption.
Qed.

Lemma preserves_for_each {A} (P : Driver B -> Prop) (l : list A)
  (body : A -> M B unit) :
  (forall x, preserves P (body x)) -> preserves P (for_each l body).
Proof.
  intros Hbody. induction l as [|x l IH]; simpl.
  - intros st HP. exact HP.
  - apply preserves_bind; [apply Hbody|intros _; apply IH].
Qed.

(** A call on a builder stores a builder only under a key that has
    one. *)
Lemma no_builder_call_builder k (method : B -> result B) :
  preserves (no_builder key) (call_builder k method).
Proof.
  intros st Hno. unfold call_builder, no_builder in *.
  destruct (builders st !! k) as [b|] eqn:Hk; [|assumption].
  destruct (method b); try assumption. cbn.
  rewrite lookup_insert_ne; [assumption|]. intros ->. congruence.
Qed.

Lemma no_builder_consume i item :
  preserves (no_builder key) (consume args i item).
Proof.
  destruct item as [doc bytes_processed]. unfold consume.
  apply preserves_bind; [intros st Hno; exact Hno|intros _].
  apply preserves_bind; [intros st Hno; exact Hno|intros _].
  apply preserves_bind.
  - apply preserves_for_each. intros [k sentences].
    apply preserves_bind; [|intros _; apply no_builder_call_builder].
    apply preserves_for_each. intros sentence. apply no_builder_call_builder.
  - intros _ st Hno. unfold log_progress.
    destruct (log_interval args =? 0); [exact Hno|].
    destruct (i mod log_interval args =? 0); exact Hno.
Qed.

Lemma no_builder_drain files fnames :
  forall i, preserves (no_builder key) (drain fix_text args tokenizer files fnames i).
Proof.
  induction fnames as [|fname rest IH]; intros i; simpl.
  - intros st Hno. exact Hno.
  - apply preserves_bind; [intros st Hno; exact Hno|].
    intros [f|]; [|apply IH].
    apply preserves_bind.
    { intros st Hno. unfold acquire.
      destruct (0 <? semaphore st); exact Hno. }
    intros _. apply preserves_bind; [intros st Hno; exact Hno|].
    intros item. apply preserves_bind; [apply no_builder_consume|].
    intros _. apply IH.
Qed.

Lemma no_builder_make_builders :
  key <> "text"%string ->
  preserves (no_builder key) (make_builders args tokenizer).
Proof.
  intros Hne. unfold make_builders, for_each.
  apply preserves_bind; [|intros _ st Hno; exact Hno].
  intros st Hno. unfold make_builder_for, no_builder in *.
  destruct (make_builder _ _ _); try exact Hno. cbn.
  rewrite lookup_insert_ne; [exact Hno|congruence].
Qed.

(** The loop that saves the files stops with [KeyError] at a configured
    key without builder, unless it has stopped before. *)
Lemma finalize_all_missing keys :
  In key keys ->
  forall st u,
    no_builder key st ->
    fst (for_each keys (finalize_key (B := B)) st) <> Ok u.
Proof.
  induction keys as [|k keys IH]; intros Hin st u Hno; [destruct Hin|].
  cbn [for_each]. unfold bind.
  destruct (finalize_key k st) as [[[]|e|] st'] eqn:Hk; cbn; try discriminate.
  destruct Hin as [->|Hin].
  - unfold finalize_key in Hk. unfold no_builder in Hno. rewrite Hno in Hk.
    discriminate Hk.
  - apply IH; [assumption|].
    assert (Hp : preserves (no_builder key) (finalize_key k)).
    { intros s Hs. unfold finalize_key.
      destruct (builders s !! k); [|exact Hs].
      destruct (output_idx_files s !! k); [|exact Hs].
      apply no_builder_call_builder. exact Hs. }
    specialize (Hp st Hno). rewrite Hk in Hp. exact Hp.
Qed.

Lemma bind_returns {A C} (m : M B A) (k : A -> M B C) st c :
  fst (bind m k st) = Ok c ->
  exists a, fst (m st) = Ok a /\ fst (k a (snd (m st))) = Ok c.
Proof.
  unfold bind. destruct (m st) as [[a|e|] st']; cbn; try discriminate.
  intros H. exists a. auto.
Qed.

(** With a configured key other than "text", the single-process run
    never completes: it raises or blocks, whatever the files and the
    builders. *)
Lemma main_inline_other_key shuffle files walk u :
  In key (json_keys args) ->
  key <> "text"%string ->
  fst (main_inline fix_text args tokenizer shuffle files walk) <> Ok u.
Proof.
  intros Hin Hne Hret. unfold main_inline in Hret.
  apply bind_returns in Hret. destruct Hret as [[] [_ Hret]].
  apply bind_returns in Hret. destruct Hret as [[] [_ Hret]].
  apply bind_returns in Hret. destruct Hret as [[] [_ Hret]].
  revert Hret. apply finalize_all_missing; [exact Hin|].
  apply no_builder_drain. apply no_builder_make_builders; [exact Hne|].
  unfold new_semaphore.
  destruct (10000 + workers args <? 0); reflexivity.
Qed.

End RoutingFacts.

(** With the default key list the scenario of the specification runs to
    its end: two documents, two token sequences each closed by the
    end-of-document id, boundaries 0, 1, 2, and an index written once. *)
Lemma main_inline_scenario :
  let run := main_inline (B := IndexedBuilder) id scenario_args
               char_tokenizer id scenario_files scenario_walk in
  fst run = Ok tt
  /\ semaphore (snd run) = 10000 + workers scenario_args
  /\ builders (snd run) !! "text"%string
     = Some {| bin_file := "out_text_document.bin";
               item_width := 2;
               token_blob :=
                 [104; 101; 108; 108; 111; 9601; 119; 111; 114; 108; 100; 0;
                  102; 111; 111; 1; 98; 97; 114; 0];
               lengths := [12; 8];
               offsets := [0; 24];
               boundaries := [0; 1; 2];
               index_file := Some "out_text_document.idx" |}.
Proof. vm_compute. repeat split. Qed.

(** C2. With the keys "text" and "label" configured, [main] makes a
    builder for "text" only; the first encoded result carries both keys,
    and routing "label" raises [KeyError]: the run ends there, and no
    builder is finalized. *)
Theorem main_builds_only_text_builder :
  let run := main_inline (B := IndexedBuilder) id
               (example_args ["text"; "label"]%string true false)
               char_tokenizer id scenario_files scenario_walk in
  fst run = Raise (KeyError "label")
  /\ builders (snd run) !! "label"%string = None
  /\ index_file <$> (builders (snd run) !! "text"%string) = Some None.
Proof. vm_compute. repeat split. Qed.

(** * Further properties of the code *)

(** ** Normalization *)

Lemma sanitize_char_fixed (c : N) : ~ is_whitespace c -> sanitize_char c = c.
Proof.
  intros Hc. unfold sanitize_char, is_whitespace in *.
  destruct (N.eqb_spec c chr_space); [tauto|].
  destruct (N.eqb_spec c chr_tab); [tauto|].
  destruct (N.eqb_spec c chr_newline); [tauto|].
  reflexivity.
Qed.

(** X1. Normalizing twice is normalizing once: [sanitize] leaves its own
    output unchanged. *)
Theorem sanitize_idempotent (text : pystr) :
  sanitize (sanitize text) = sanitize text.
Proof.
  rewrite !sanitize_pointwise, map_map. apply map_ext. intros c.
  apply sanitize_char_fixed, sanitize_char_not_whitespace.
Qed.

Lemma sanitize_char_injective (c d : N) :
  ~ is_sentinel c -> ~ is_sentinel d ->
  sanitize_char c = sanitize_char d -> c = d.
Proof.
  unfold is_sentinel, sanitize_char. intros Hc Hd.
  destruct (N.eqb_spec c chr_space) as [->|?];
    [|destruct (N.eqb_spec c chr_tab) as [->|?];
      [|destruct (N.eqb_spec c chr_newline) as [->|?]]];
  (destruct (N.eqb_spec d chr_space) as [->|?];
    [|destruct (N.eqb_spec d chr_tab) as [->|?];
      [|destruct (N.eqb_spec d chr_newline) as [->|?]]]);
  intros H; try reflexivity; try discriminate H; subst; tauto.
Qed.

(** X2. On texts that hold none of the three sentinel characters
    [sanitize] loses nothing: two such texts with the same normal form are
    equal. *)
Theorem sanitize_injective_without_sentinels (a b : pystr) :
  Forall (fun c => ~ is_sentinel c) a ->
  Forall (fun c => ~ is_sentinel c) b ->
  sanitize a = sanitize b ->
  a = b.
Proof.
  rewrite !sanitize_pointwise. intros Ha. revert b.
  induction Ha as [|c a Hc _ IH]; intros b Hb Heq.
  - destruct b; [reflexivity|discriminate Heq].
  - destruct Hb as [|d b Hd Hb]; [discriminate Heq|].
    simpl in Heq. inversion Heq as [[Hcd Hab]].
    f_equal; [apply sanitize_char_injective; assumption|].
    apply IH; assumption.
Qed.

(** A tab and the character U+0001 have the same normal form. *)
Lemma sanitize_collision : sanitize [chr_tab] = sanitize [TAB_TOKEN].
Proof. reflexivity. Qed.

Lemma sanitize_injective_without_sentinels_witness :
  Forall (fun c => ~ is_sentinel c) [104; 32; 105]%N
  /\ Forall (fun c => ~ is_sentinel c) [104; 32; 105]%N
  /\ sanitize [104; 32; 105]%N = sanitize [104; 32; 105]%N
  /\ [104; 32; 105]%N = [104; 32; 105]%N.
Proof.
  assert (H : Forall (fun c => ~ is_sentinel c) [104; 32; 105]%N).
  { repeat constructor; intros [E|[E|E]]; discriminate E. }
  split; [exact H|]. split; [exact H|]. split; [reflexivity|].
  exact (sanitize_injective_without_sentinels _ _ H H eq_refl).
Defined.

(** ** The encoder *)

Section EncoderOutcome.

Variable fix_text : pystr -> pystr.
Variable args : Args.
Variable tokenizer : Tokenizer.

Lemma encode_keys_all (text : pystr) v keys :
  encode_key args tokenizer text = Ok v ->
  forall ids,
    encode_keys args tokenizer text keys ids
    = Ok (fold_left (fun d k => dict_set d k v) keys ids).
Proof.
  intros Ev. induction keys as [|k keys IH]; simpl; intros ids; [reflexivity|].
  rewrite Ev. apply IH.
Qed.

Lemma encode_key_sequences (text : pystr) v :
  encode_key args tokenizer text = Ok v -> v = sequences_of args tokenizer text.
Proof.
  rewrite encode_key_cases. unfold sequences_of.
  destruct (tokenize tokenizer text), (append_eod args);
    intros H; inversion H; reflexivity.
Qed.

Lemma encode_key_outcome (text : pystr) :
  (encode_key args tokenizer text = Raise IndexError
   /\ append_eod args = true /\ tokenize tokenizer text = [])
  \/ (encode_key args tokenizer text = Ok (sequences_of args tokenizer text)
      /\ (append_eod args = false \/ tokenize tokenizer text <> [])).
Proof.
  rewrite encode_key_cases. unfold sequences_of.
  destruct (tokenize tokenizer text), (append_eod args); auto;
    right; (split; [reflexivity|]); right; discriminate.
Qed.

(** What [encode] returns, in closed form. *)
Lemma encode_closed_form (text : pystr) :
  let text' := repaired fix_text args text in
  encode fix_text args tokenizer text =
    match json_keys args with
    | [] => Ok ([], len text')
    | _ :: _ =>
        if append_eod args && negb (0 <? len (tokenize tokenizer text'))
        then Raise IndexError
        else Ok (fold_left
                   (fun d k => dict_set d k (sequences_of args tokenizer text'))
                   (json_keys args) [],
                 len text')
    end.
Proof.
  intros text'. unfold encode. fold (repaired fix_text args text).
  fold text'. rewrite len_positive.
  destruct (json_keys args) as [|k ks] eqn:Hkeys; [reflexivity|].
  destruct (encode_key_outcome text') as [[Ev [He Ht]]|[Ev Hc]].
  - rewrite (encode_keys_raises _ _ _ _ _ _ _ Ev), He, Ht. reflexivity.
  - rewrite (encode_keys_all _ _ _ Ev).
    destruct Hc as [He|Ht].
    + rewrite He. reflexivity.
    + destruct (tokenize tokenizer text'); [contradiction|].
      rewrite andb_false_r. reflexivity.
Qed.

End EncoderOutcome.

(** X3. [encode] never blocks and fails in one way only: it raises
    [IndexError] exactly when end-of-document marking is on, the
    tokenization of the text is empty and at least one key is configured;
    in every other case it returns. *)
Theorem encode_fails_exactly
  (fix_text : pystr -> pystr) (args : Args) (tokenizer : Tokenizer)
  (text : pystr) :
  (encode fix_text args tokenizer text = Raise IndexError
   <-> append_eod args = true
       /\ tokenize tokenizer (repaired fix_text args text) = []
       /\ json_keys args <> [])
  /\ (forall e, encode fix_text args tokenizer text = Raise e -> e = IndexError)
  /\ encode fix_text args tokenizer text <> Blocks
  /\ (encode fix_text args tokenizer text <> Raise IndexError ->
      exists ids,
        encode fix_text args tokenizer text
        = Ok (ids, len (repaired fix_text args text))).
Proof.
  pose proof (encode_closed_form fix_text args tokenizer text) as Hform.
  cbn zeta in Hform. rewrite len_positive in Hform.
  destruct (json_keys args) as [|k ks].
  - rewrite Hform. split; [|split; [|split]].
    + split; [discriminate|]. intros (_ & _ & H). contradiction.
    + discriminate.
    + discriminate.
    + eauto.
  - destruct (append_eod args);
      destruct (tokenize tokenizer (repaired fix_text args text)) as [|t ts];
      cbn in Hform; rewrite Hform; (split; [|split; [|split]]);
      try discriminate;
      try (intros e He; inversion He; reflexivity);
      try (intros _; eexists; reflexivity);
      try (intros H; contradiction);
      try (split; [discriminate|intros (? & ? & ?); discriminate]).
    split; [intros _|reflexivity]. repeat split. discriminate.
Qed.

Lemma encode_fails_exactly_witness :
  encode id (example_args ["text"%string] false false) char_tokenizer []
  <> Raise IndexError
  /\ exists ids,
       encode id (example_args ["text"%string] false false) char_tokenizer []
       = Ok (ids, 0).
Proof.
  assert (H : encode id (example_args ["text"%string] false false)
                     char_tokenizer [] <> Raise IndexError)
    by discriminate.
  split; [exact H|].
  destruct (encode_fails_exactly id (example_args ["text"%string] false false)
              char_tokenizer []) as (_ & _ & _ & Hret).
  exact (Hret H).
Defined.

Lemma dict_set_keys {V} (d : list (string * V)) k v key :
  In key (map fst (dict_set d k v)) <-> key = k \/ In key (map fst d).
Proof.
  induction d as [|[k' w] d IH]; simpl.
  - intuition congruence.
  - destruct (String.eqb_spec k' k) as [->|Hne]; simpl.
    + intuition congruence.
    + rewrite IH. intuition congruence.
Qed.

Lemma dict_set_nodup {V} (d : list (string * V)) k v :
  List.NoDup (map fst d) -> List.NoDup (map fst (dict_set d k v)).
Proof.
  induction d as [|[k' w] d IH]; simpl; intros Hnd.
  - constructor; [intros []|constructor].
  - destruct (String.eqb_spec k' k) as [->|Hne]; simpl; [exact Hnd|].
    apply List.NoDup_cons_iff in Hnd. destruct Hnd as [Hnotin Hnd].
    apply List.NoDup_cons_iff. split; [|apply IH; exact Hnd].
    rewrite dict_set_keys. intros [->|Hin]; [congruence|contradiction].
Qed.

Lemma fold_dict_set_keys {V} (v : V) keys :
  forall d,
    List.NoDup (map fst d) ->
    List.NoDup (map fst (fold_left (fun d k => dict_set d k v) keys d))
    /\ forall key,
         In key (map fst (fold_left (fun d k => dict_set d k v) keys d))
         <-> In key keys \/ In key (map fst d).
Proof.
  induction keys as [|k keys IH]; simpl; intros d Hnd.
  - split; [exact Hnd|]. intros key. tauto.
  - destruct (IH (dict_set d k v) (dict_set_nodup d k v Hnd)) as [Hnd' Hin].
    split; [exact Hnd'|]. intros key. rewrite Hin, dict_set_keys.
    intuition congruence.
Qed.

(** X4. An encoded document has one entry per distinct configured key and
    no other, and every entry holds the same token sequences: those of the
    whole text, whatever the key. *)
Theorem encode_entries
  (fix_text : pystr -> pystr) (args : Args) (tokenizer : Tokenizer)
  (text : pystr) (ids : encoded) (n : Z) :
  encode fix_text args tokenizer text = Ok (ids, n) ->
  List.NoDup (map fst ids)
  /\ (forall key, In key (map fst ids) <-> In key (json_keys args))
  /\ (forall key,
        In key (json_keys args) ->
        dict_get ids key
        = Some (sequences_of args tokenizer (repaired fix_text args text))).
Proof.
  intros Hrun. apply encode_second in Hrun. destruct Hrun as [_ Hkeys].
  destruct (json_keys args) as [|k ks] eqn:Hjson.
  - simpl in Hkeys. inversion Hkeys; subst ids. simpl.
    split; [constructor|]. split; [tauto|intros key []].
  - destruct (encode_key args tokenizer (repaired fix_text args text))
      as [v|e|] eqn:Ev;
      try (simpl in Hkeys; rewrite Ev in Hkeys; discriminate Hkeys).
    pose proof (encode_key_sequences args tokenizer _ _ Ev) as Hv.
    rewrite (encode_keys_all args tokenizer _ _ _ Ev) in Hkeys.
    assert (Hids : ids = fold_left (fun d k0 => dict_set d k0 v) (k :: ks) [])
      by congruence.
    destruct (fold_dict_set_keys v (k :: ks) [] (List.NoDup_nil _))
      as [Hnd Hin].
    rewrite <- Hids in Hnd, Hin.
    split; [exact Hnd|]. split.
    + intros key. rewrite Hin. simpl. tauto.
    + intros key Hkey.
      destruct (encode_keys_stored args tokenizer _ v key (k :: ks) Ev Hkey [])
        as [ids' [Hrun' Hget]].
      rewrite (encode_keys_all args tokenizer _ _ _ Ev) in Hrun'.
      assert (ids' = ids) by congruence. subst ids'.
      rewrite <- Hv. exact Hget.
Qed.

Lemma encode_entries_witness :
  encode id (example_args ["text"; "label"; "text"]%string false false)
         char_tokenizer [104; 105]%N
  = Ok ([("text"%string, [[104; 105]]); ("label"%string, [[104; 105]])], 2)
  /\ List.NoDup
       (map fst [("text"%string, [[104; 105]]); ("label"%string, [[104; 105]])]).
Proof.
  split; [reflexivity|].
  destruct (encode_entries id
              (example_args ["text"; "label"; "text"]%string false false)
              char_tokenizer [104; 105]%N
              [("text"%string, [[104; 105]]); ("label"%string, [[104; 105]])] 2)
    as [Hnd _]; [reflexivity|exact Hnd].
Defined.

(** ** The document source *)

Lemma utf8_decode_ignore_length_le (n : nat) :
  forall bs, (length bs <= n)%nat ->
             (length (utf8_decode_ignore bs) <= length bs)%nat.
Proof.
  induction n as [|n IH]; intros bs Hlen.
  - destruct bs; [simpl; lia|simpl in Hlen; lia].
  - destruct bs as [|b0 r0]; [simpl; lia|].
    cbn [utf8_decode_ignore].
    repeat match goal with
    | |- context [if ?c then _ else _] => destruct c
    | |- context [match ?l with [] => _ | _ :: _ => _ end] =>
        is_var l; destruct l
    end; cbn [length] in *;
    repeat match goal with
    | |- context [utf8_decode_ignore ?r] =>
        let H := fresh in
        assert (H : (length (utf8_decode_ignore r) <= length r)%nat)
          by (apply IH; cbn [length]; lia);
        cbn [length] in H; revert H; generalize (utf8_decode_ignore r); intros
    end; cbn [length]; try lia.
Qed.

Lemma universal_newlines_length_le (n : nat) :
  forall s, (length s <= n)%nat ->
            (length (universal_newlines s) <= length s)%nat.
Proof.
  induction n as [|n IH]; intros s Hlen.
  - destruct s; [simpl; lia|simpl in Hlen; lia].
  - destruct s as [|c r]; [simpl; lia|].
    cbn [universal_newlines].
    destruct (c =? 13)%N.
    + destruct r as [|d r']; [simpl; lia|].
      destruct (d =? 10)%N; cbn [length] in *.
      * specialize (IH r'). lia.
      * specialize (IH (d :: r')). cbn [length] in IH. lia.
    + cbn [length] in *. specialize (IH r). lia.
Qed.

Lemma document_of_length (raw : list byte) : len (document_of raw) <= len raw.
Proof.
  unfold document_of, len. rewrite sanitize_pointwise, length_map.
  pose proof (universal_newlines_length_le _
                (utf8_decode_ignore (map Byte.to_N raw)) (le_n _)) as H1.
  pose proof (utf8_decode_ignore_length_le _ (map Byte.to_N raw) (le_n _))
    as H2.
  rewrite length_map in H2. lia.
Qed.

Lemma document_of_no_whitespace (raw : list byte) :
  Forall (fun c => ~ is_whitespace c) (document_of raw).
Proof.
  unfold document_of. rewrite sanitize_pointwise. apply Forall_forall.
  intros c Hc. apply list_elem_of_In, in_map_iff in Hc.
  destruct Hc as [c0 [<- _]]. apply sanitize_char_not_whitespace.
Qed.

(** X5. What [read] returns for a file holds no space, tab or newline
    character and has at most as many characters as the file has bytes;
    [read] fails only on a file that cannot be opened, with [OSError]. *)
Theorem read_document_shape (files : filesystem) (fname : string) :
  match read files fname with
  | Ok doc =>
      Forall (fun c => ~ is_whitespace c) doc
      /\ exists raw, files !! fname = Some raw /\ len doc <= len raw
  | Raise e => e = OSError fname /\ files !! fname = None
  | Blocks => False
  end.
Proof.
  unfold read. destruct (files !! fname) as [raw|]; [|auto].
  split; [apply document_of_no_whitespace|].
  exists raw. split; [reflexivity|apply document_of_length].
Qed.

Lemma yield_from_all_readable (files : filesystem) (fnames : list string) :
  (forall f, In f fnames -> is_Some (files !! f)) ->
  snd (yield_from files fnames) = None
  /\ yielded (fst (yield_from files fnames))
     = List.filter truthy (documents_of files fnames).
Proof.
  induction fnames as [|f fnames IH]; intros Hall; [split; reflexivity|].
  destruct (Hall f (or_introl eq_refl)) as [raw Hraw].
  rewrite (yield_from_cons_readable _ _ _ _ Hraw). cbn [fst snd].
  destruct IH as [IHout IHdocs]; [intros g Hg; apply Hall; right; exact Hg|].
  split; [exact IHout|].
  unfold yielded, documents_of in *. rewrite flat_map_app. cbn [flat_map].
  rewrite Hraw, List.filter_app, IHdocs. f_equal.
  cbn [List.filter]. destruct (truthy (document_of raw)); reflexivity.
Qed.

(** X6. When every file can be opened the source ends without
    exception, and the documents it yields are the non-empty documents of
    the files, each once, in the order the shuffle left the names in. *)
Theorem source_yields_in_order
  (shuffle : list string -> list string) (files : filesystem)
  (walk : list (string * list string)) :
  (forall f, In f (list_fnames shuffle walk) -> is_Some (files !! f)) ->
  snd (yield_from_files shuffle files walk) = None
  /\ yielded (fst (yield_from_files shuffle files walk))
     = List.filter truthy (documents_of files (list_fnames shuffle walk)).
Proof. intros Hall. apply yield_from_all_readable. exact Hall. Qed.

Lemma source_yields_in_order_witness :
  (forall f, In f (list_fnames (@rev string) scenario_walk) ->
             is_Some (scenario_files !! f))
  /\ yielded (fst (yield_from_files (@rev string) scenario_files scenario_walk))
     = [document_of [x66; x6f; x6f; x09; x62; x61; x72]%byte;
        document_of (ascii_bytes "hello world")].
Proof.
  assert (Hall : forall f, In f (list_fnames (@rev string) scenario_walk) ->
                           is_Some (scenario_files !! f)).
  { intros f [<-|[<-|[<-|[]]]]; eexists; reflexivity. }
  split; [exact Hall|].
  destruct (source_yields_in_order (@rev string) scenario_files scenario_walk Hall)
    as [_ Hdocs].
  rewrite Hdocs. reflexivity.
Defined.

(** ** The loop body and the progress report *)

Section ConsumeFacts.

Context {B : Type} {builder_ops : DatasetBuilder B}.
Variable args : Args.

(** The statements of the loop body that talk to the builders leave the
    counters alone. *)
Lemma counters_call_builder (bytes bar : Z) key (method : B -> result B) :
  preserves (fun st => total_bytes_processed st = bytes /\ pbar st = bar)
            (call_builder key method).
Proof.
  intros st Hst. unfold call_builder.
  destruct (builders st !! key) as [b|]; [|exact Hst].
  destruct (method b); exact Hst.
Qed.

Lemma consume_returns i doc n (st st' : Driver B) :
  consume args i (doc, n) st = (Ok tt, st') ->
  log_interval args <> 0
  /\ total_bytes_processed st' = total_bytes_processed st + n
  /\ pbar st' = pbar st + (if i mod log_interval args =? 0
                           then if i =? 0 then 0 else log_interval args
                           else 0).
Proof.
  unfold consume. unfold bind at 1. cbn beta iota.
  unfold bind at 1, release at 1. cbn beta iota.
  set (st1 := set_semaphore _ _).
  unfold bind at 1.
  match goal with
  | |- context [for_each doc ?body st1] =>
      pose proof (preserves_for_each
                    (fun s => total_bytes_processed s
                              = total_bytes_processed st + n
                              /\ pbar s = pbar st)
                    doc body) as Hloop;
      destruct (for_each doc body st1) as [[[]| |] st2] eqn:Hbody
  end; try discriminate.
  assert (Hst2 : total_bytes_processed st2 = total_bytes_processed st + n
                 /\ pbar st2 = pbar st).
  { specialize (Hloop ltac:(intros [key sentences];
      apply preserves_bind;
        [apply preserves_for_each; intros s; apply counters_call_builder
        |intros _; apply counters_call_builder]) st1).
    rewrite Hbody in Hloop. apply Hloop. subst st1. split; reflexivity. }
  destruct Hst2 as [Hbytes Hbar].
  unfold log_progress.
  destruct (log_interval args =? 0) eqn:Hzero; [discriminate|].
  apply Z.eqb_neq in Hzero.
  destruct (i mod log_interval args =? 0); intros H; inversion H; subst st';
    cbn; repeat split; try assumption; try lia.
  destruct (i =? 0); lia.
Qed.

End ConsumeFacts.

(** X7. With a log interval of 0 the loop body never returns normally.
    After updating the byte counter and releasing the permit it writes
    the result to the builders; when one of those calls fails the body
    ends with that failure, and otherwise the progress test
    [i % args.log_interval] raises [ZeroDivisionError], in the state the
    builder calls have left. *)
Theorem consume_log_interval_zero
  {B : Type} {builder_ops : DatasetBuilder B}
  (args : Args) (i : Z) (doc : encoded) (n : Z) (st : Driver B) :
  log_interval args = 0 ->
  consume args i (doc, n) st =
    match route doc
            (set_semaphore (semaphore st + 1)
               (set_counters (total_bytes_processed st + n) (pbar st) st))
    with
    | (Ok _, st2) => (Raise ZeroDivisionError, st2)
    | other => other
    end
  /\ fst (consume args i (doc, n) st) <> Ok tt
  /\ semaphore (snd (consume args i (doc, n) st)) = semaphore st + 1.
Proof.
  intros Hzero.
  assert (Hform : consume args i (doc, n) st =
    match route doc
            (set_semaphore (semaphore st + 1)
               (set_counters (total_bytes_processed st + n) (pbar st) st))
    with
    | (Ok _, st2) => (Raise ZeroDivisionError, st2)
    | other => other
    end).
  { unfold consume. unfold bind at 1. cbn beta iota.
    unfold bind at 1, release at 1. cbn beta iota.
    unfold bind at 1.
    match goal with
    | |- context [for_each doc ?body ?s] =>
        change (for_each doc body s) with (route doc s)
    end.
    destruct (route doc _) as [[[]|e|] st2]; try reflexivity.
    unfold log_progress. rewrite Hzero. reflexivity. }
  split; [exact Hform|]. split.
  - rewrite Hform.
    destruct (route doc _) as [[[]|e|] st2]; discriminate.
  - apply consume_semaphore.
Qed.

Lemma consume_log_interval_zero_witness :
  log_interval zero_interval_args = 0
  /\ fst (consume zero_interval_args 1 ([("text"%string, [[104; 0]])], 1)
            ready_driver)
     = Raise ZeroDivisionError
  /\ token_blob
       <$> (builders
              (snd (consume zero_interval_args 1
                      ([("text"%string, [[104; 0]])], 1) ready_driver))
              !! "text"%string)
     = Some [104; 0].
Proof.
  split; [reflexivity|].
  destruct (consume_log_interval_zero zero_interval_args 1
              [("text"%string, [[104; 0]])] 1 ready_driver eq_refl)
    as [Hbody _].
  rewrite Hbody. split; vm_compute; reflexivity.
Defined.

(** ** The single-process run *)

Lemma div_step (L j : Z) :
  0 < L -> j / L = (j - 1) / L + (if j mod L =? 0 then 1 else 0).
Proof.
  intros HL.
  pose proof (Z.div_mod j L ltac:(lia)) as Hj.
  pose proof (Z.mod_pos_bound j L HL) as Hr.
  destruct (Z.eqb_spec (j mod L) 0) as [Hz|Hnz].
  - symmetry. rewrite Z.add_comm.
    assert ((j - 1) / L = j / L - 1); [|lia].
    symmetry. apply (Z.div_unique_pos (j - 1) L (j / L - 1) (L - 1)); lia.
  - rewrite Z.add_0_r.
    apply (Z.div_unique_pos (j - 1) L (j / L) (j mod L - 1)); lia.
Qed.

Section InlineFacts.

Context {B : Type} {builder_ops : DatasetBuilder B}.
Variable fix_text : pystr -> pystr.
Variable args : Args.
Variable tokenizer : Tokenizer.
Variable files : filesystem.

Lemma yielder_readable fname raw :
  files !! fname = Some raw ->
  yielder files fname =
    Ok (if truthy (document_of raw) then Some (document_of raw) else None).
Proof.
  intros H. unfold yielder. rewrite (read_readable _ _ _ H). simpl.
  destruct (truthy (document_of raw)); reflexivity.
Qed.

Lemma drain_returns (fnames : list string) :
  forall i (st st' : Driver B),
    drain fix_text args tokenizer files fnames i st = (Ok tt, st') ->
    snd (yield_from files fnames) = None
    /\ semaphore st' = semaphore st
    /\ total_bytes_processed st'
       = total_bytes_processed st
         + total_len fix_text args (yielded (fst (yield_from files fnames)))
    /\ (0 < log_interval args -> 0 < i ->
        pbar st'
        = pbar st
          + log_interval args
            * ((i + len (yielded (fst (yield_from files fnames))) - 1)
                 / log_interval args
               - (i - 1) / log_interval args)).
Proof.
  induction fnames as [|fname rest IH]; intros i st st' Hrun.
  - cbn in Hrun. inversion Hrun; subst st'. cbn.
    repeat split; try lia.
    intros HL Hi. unfold len. cbn [length yielded flat_map fst yield_from].
    change (Z.of_nat 0) with 0. rewrite Z.add_0_r, Z.sub_diag, Z.mul_0_r. lia.
  - cbn [drain] in Hrun. unfold bind at 1, lift at 1 in Hrun.
    destruct (files !! fname) as [raw|] eqn:Hf.
    2:{ unfold yielder in Hrun. rewrite (read_unreadable _ _ Hf) in Hrun.
        discriminate Hrun. }
    rewrite (yielder_readable _ _ Hf) in Hrun.
    rewrite (yield_from_cons_readable _ _ _ _ Hf). cbn [fst snd].
    destruct (truthy (document_of raw)) eqn:Hdoc.
    2:{ cbn [app]. apply IH. exact Hrun. }
    unfold bind at 1, acquire at 1 in Hrun.
    destruct (0 <? semaphore st) eqn:Hsem; [|discriminate Hrun].
    unfold bind at 1, lift at 1 in Hrun.
    destruct (encode fix_text args tokenizer (document_of raw))
      as [[ids n]| |] eqn:He; try discriminate Hrun.
    unfold bind at 1 in Hrun.
    destruct (consume args i (ids, n) _) as [[[]| |] st2] eqn:Hc;
      try discriminate Hrun.
    pose proof (consume_semaphore args i (ids, n)
                  (set_semaphore (semaphore st - 1) st)) as Hrel.
    rewrite Hc in Hrel. cbn in Hrel.
    apply consume_returns in Hc. destruct Hc as (HL0 & Hbytes & Hbar).
    cbn in Hbytes, Hbar.
    apply encode_second in He. destruct He as [Hn _].
    destruct (IH _ _ _ Hrun) as (Hout & Hs & Ht & Hp).
    split; [exact Hout|]. split; [lia|].
    cbn [app yielded flat_map]. fold (yielded (fst (yield_from files rest))).
    cbn [app total_len fold_right].
    fold (total_len fix_text args (yielded (fst (yield_from files rest)))).
    split; [lia|].
    intros HL Hi. specialize (Hp HL ltac:(lia)).
    unfold len in *. cbn [length].
    rewrite Nat2Z.inj_succ.
    set (m := Z.of_nat (length (yielded (fst (yield_from files rest))))) in *.
    replace (i + Z.succ m - 1) with (i + 1 + m - 1) by lia.
    replace (i + 1 - 1) with i in Hp by lia.
    rewrite (div_step (log_interval args) i HL) in Hp.
    generalize dependent ((i + 1 + m - 1) / log_interval args).
    generalize dependent ((i - 1) / log_interval args).
    intros b a Hp.
    destruct (i mod log_interval args =? 0); [|nia].
    destruct (Z.eqb_spec i 0); [lia|]. nia.
Qed.
Lemma bind_ok_inv {A C} (m : M B A) (k : A -> M B C) st c st'' :
  bind m k st = (Ok c, st'') ->
  exists a st', m st = (Ok a, st') /\ k a st' = (Ok c, st'').
Proof.
  unfold bind. destruct (m st) as [[a|e|] st']; try discriminate.
  intros H. exists a, st'. auto.
Qed.

(** Making the builders and saving the files leave the counters and the
    semaphore alone. *)
Lemma make_builders_frame (P : Z -> Z -> Z -> Prop) :
  preserves (fun st : Driver B =>
               P (semaphore st) (total_bytes_processed st) (pbar st))
            (make_builders args tokenizer).
Proof.
  apply preserves_for_each. intros key st Hst. unfold make_builder_for.
  destruct (make_builder _ _ _); exact Hst.
Qed.

Lemma finalize_all_frame (P : Z -> Z -> Z -> Prop) :
  preserves (fun st : Driver B =>
               P (semaphore st) (total_bytes_processed st) (pbar st))
            (finalize_all args).
Proof.
  apply preserves_for_each. intros key st Hst. unfold finalize_key.
  destruct (builders st !! key) as [b|] eqn:Hb; [|exact Hst].
  destruct (output_idx_files st !! key) as [idx|]; [|exact Hst].
  unfold call_builder. rewrite Hb. destruct (finalize b idx); exact Hst.
Qed.

(** A run that completes: the state the loop over the files started from
    and the state it reached. *)
Lemma main_inline_returns shuffle walk (st : Driver B) :
  main_inline fix_text args tokenizer shuffle files walk = (Ok tt, st) ->
  exists st2 st3 : Driver B,
    semaphore st2 = 10000 + workers args
    /\ total_bytes_processed st2 = 0 /\ pbar st2 = 0
    /\ drain fix_text args tokenizer files (list_fnames shuffle walk) 1 st2
       = (Ok tt, st3)
    /\ semaphore st = semaphore st3
    /\ total_bytes_processed st = total_bytes_processed st3
    /\ pbar st = pbar st3.
Proof.
  unfold main_inline. intros Hrun.
  apply bind_ok_inv in Hrun. destruct Hrun as ([] & st1 & Hsem & Hrun).
  apply bind_ok_inv in Hrun. destruct Hrun as ([] & st2 & Hmake & Hrun).
  apply bind_ok_inv in Hrun. destruct Hrun as ([] & st3 & Hdrain & Hfin).
  unfold new_semaphore in Hsem.
  destruct (10000 + workers args <? 0); [discriminate Hsem|].
  inversion Hsem; subst st1; clear Hsem.
  pose proof (make_builders_frame
                (fun s t b => s = 10000 + workers args /\ t = 0 /\ b = 0)
                (set_semaphore (10000 + workers args) fresh_driver)) as H2.
  rewrite Hmake in H2. cbn in H2. destruct H2 as (Hs2 & Ht2 & Hb2); [auto|].
  pose proof (finalize_all_frame
                (fun s t b => s = semaphore st3
                              /\ t = total_bytes_processed st3
                              /\ b = pbar st3) st3) as H4.
  rewrite Hfin in H4. cbn in H4. destruct H4 as (Hs4 & Ht4 & Hb4); [auto|].
  exists st2, st3. auto 10.
Qed.

End InlineFacts.

(** X8. When the single-process run completes, every file was readable,
    all the permits are back in the semaphore, and the byte counter holds
    the sum of the character counts of the yielded documents (each
    counted after the optional text repair). *)
Theorem main_inline_accounting
  {B : Type} {builder_ops : DatasetBuilder B}
  (fix_text : pystr -> pystr) (args : Args) (tokenizer : Tokenizer)
  (shuffle : list string -> list string) (files : filesystem)
  (walk : list (string * list string)) :
  let run := main_inline (B := B) fix_text args tokenizer shuffle files walk in
  fst run = Ok tt ->
  snd (yield_from_files shuffle files walk) = None
  /\ semaphore (snd run) = 10000 + workers args
  /\ total_bytes_processed (snd run)
     = total_len fix_text args
         (yielded (fst (yield_from_files shuffle files walk))).
Proof.
  intros run Hok. subst run.
  destruct (main_inline fix_text args tokenizer shuffle files walk)
    as [r st] eqn:Hrun.
  cbn in Hok. subst r. cbn [snd].
  apply main_inline_returns in Hrun.
  destruct Hrun as (st2 & st3 & Hs2 & Ht2 & Hb2 & Hdrain & Hs & Ht & Hb).
  apply drain_returns in Hdrain.
  destruct Hdrain as (Hout & Hs3 & Ht3 & _).
  unfold yield_from_files. split; [exact Hout|]. split; lia.
Qed.

Lemma main_inline_accounting_witness :
  fst (main_inline (B := IndexedBuilder) id scenario_args char_tokenizer id
         scenario_files scenario_walk) = Ok tt
  /\ total_bytes_processed
       (snd (main_inline (B := IndexedBuilder) id scenario_args char_tokenizer
               id scenario_files scenario_walk))
     = 18.
Proof.
  split; [vm_compute; reflexivity|].
  destruct (main_inline_accounting (B := IndexedBuilder) id scenario_args
              char_tokenizer id scenario_files scenario_walk)
    as (_ & _ & Hbytes); [vm_compute; reflexivity|].
  rewrite Hbytes. vm_compute. reflexivity.
Defined.

(** X9. When the single-process run completes with a positive log
    interval L after n documents, the progress bar has been advanced to
    the largest multiple of L that is at most n. *)
Theorem main_inline_progress
  {B : Type} {builder_ops : DatasetBuilder B}
  (fix_text : pystr -> pystr) (args : Args) (tokenizer : Tokenizer)
  (shuffle : list string -> list string) (files : filesystem)
  (walk : list (string * list string)) :
  let run := main_inline (B := B) fix_text args tokenizer shuffle files walk in
  fst run = Ok tt ->
  0 < log_interval args ->
  pbar (snd run)
  = log_interval args
    * (len (yielded (fst (yield_from_files shuffle files walk)))
       / log_interval args).
Proof.
  intros run Hok HL. subst run.
  destruct (main_inline fix_text args tokenizer shuffle files walk)
    as [r st] eqn:Hrun.
  cbn in Hok. subst r. cbn [snd].
  apply main_inline_returns in Hrun.
  destruct Hrun as (st2 & st3 & Hs2 & Ht2 & Hb2 & Hdrain & Hs & Ht & Hb).
  apply drain_returns in Hdrain.
  destruct Hdrain as (_ & _ & _ & Hp).
  specialize (Hp HL ltac:(lia)). unfold yield_from_files.
  rewrite Hb, Hp, Hb2.
  replace (1 + len (yielded (fst (yield_from files (list_fnames shuffle walk))))
           - 1)
    with (len (yielded (fst (yield_from files (list_fnames shuffle walk)))))
    by lia.
  replace ((1 - 1) / log_interval args) with 0
    by (symmetry; apply Z.div_0_l; lia).
  rewrite Z.sub_0_r. lia.
Qed.

Lemma main_inline_progress_witness :
  fst (main_inline (B := IndexedBuilder) id
         {| input := "corpus"; json_keys := ["text"%string]; num_docs := None;
            append_eod := true; ftfy := false; output_prefix := "out";
            dataset_impl := "mmap"; workers := 1; log_interval := 2 |}
         char_tokenizer id scenario_files scenario_walk) = Ok tt
  /\ 0 < 2
  /\ pbar
       (snd (main_inline (B := IndexedBuilder) id
               {| input := "corpus"; json_keys := ["text"%string];
                  num_docs := None; append_eod := true; ftfy := false;
                  output_prefix := "out"; dataset_impl := "mmap";
                  workers := 1; log_interval := 2 |}
               char_tokenizer id scenario_files scenario_walk))
     = 2.
Proof.
  split; [vm_compute; reflexivity|]. split; [lia|].
  rewrite (main_inline_progress (B := IndexedBuilder) id
             {| input := "corpus"; json_keys := ["text"%string];
                num_docs := None; append_eod := true; ftfy := false;
                output_prefix := "out"; dataset_impl := "mmap";
                workers := 1; log_interval := 2 |}
             char_tokenizer id scenario_files scenario_walk).
  - vm_compute. reflexivity.
  - vm_compute. reflexivity.
  - cbn [log_interval]. lia.
Defined.

Section InlineOutcomes.

Context {B : Type} {builder_ops : DatasetBuilder B}.
Variable fix_text : pystr -> pystr.
Variable args : Args.
Variable tokenizer : Tokenizer.
Variable files : filesystem.

Lemma encode_raises_index_error (text : pystr) :
  match encode fix_text args tokenizer text with
  | Ok _ => True
  | Raise e => e = IndexError
  | Blocks => False
  end.
Proof.
  rewrite encode_closed_form. cbn zeta.
  destruct (json_keys args); [exact I|].
  destruct (append_eod args && negb _); [reflexivity|exact I].
Qed.

(** The loop over the files ends with the permits it started with, or
    with one less when [encode] has raised. *)
Lemma drain_semaphore (fnames : list string) :
  forall i (st st' : Driver B) r,
    drain fix_text args tokenizer files fnames i st = (r, st') ->
    semaphore st' = semaphore st
    \/ (r = Raise IndexError /\ semaphore st' = semaphore st - 1).
Proof.
  induction fnames as [|fname rest IH]; intros i st st' r Hrun.
  - inversion Hrun. left. reflexivity.
  - cbn [drain] in Hrun. unfold bind at 1, lift at 1 in Hrun.
    destruct (yielder files fname) as [[f|]|e|];
      [|eapply IH; exact Hrun|inversion Hrun; left; reflexivity..].
    unfold bind at 1, acquire at 1 in Hrun.
    destruct (0 <? semaphore st); [|inversion Hrun; left; reflexivity].
    unfold bind at 1, lift at 1 in Hrun.
    pose proof (encode_raises_index_error f) as He.
    destruct (encode fix_text args tokenizer f) as [item|e|];
      [|subst e; inversion Hrun; right; split; [reflexivity|cbn; lia]
       |destruct He].
    unfold bind at 1 in Hrun.
    pose proof (consume_semaphore args i item
                  (set_semaphore (semaphore st - 1) st)) as Hrel.
    destruct (consume args i item _) as [[[]|e|] st2]; cbn in Hrel;
      [|inversion Hrun; subst; left; lia..].
    destruct (IH _ _ _ _ Hrun) as [IHs|[IHr IHs]];
      [left; lia|right; split; [exact IHr|lia]].
Qed.

Lemma never_blocks_bind {A C} (m : M B A) (k : A -> M B C) :
  never_blocks m -> (forall a, never_blocks (k a)) -> never_blocks (bind m k).
Proof.
  intros Hm Hk st. unfold bind. specialize (Hm st).
  destruct (m st) as [[a|e|] st']; cbn in *;
    [apply Hk|discriminate|exfalso; apply Hm; reflexivity].
Qed.

Lemma never_blocks_for_each {A} (l : list A) (body : A -> M B unit) :
  (forall x, never_blocks (body x)) -> never_blocks (for_each l body).
Proof.
  intros Hbody. induction l as [|x l IH]; simpl.
  - intros st. discriminate.
  - apply never_blocks_bind; [apply Hbody|intros _; exact IH].
Qed.

Lemma never_blocks_call_builder key (method : B -> result B) :
  (forall b, method b <> Blocks) -> never_blocks (call_builder key method).
Proof.
  intros Hm st. unfold call_builder.
  destruct (builders st !! key) as [b|]; [|discriminate].
  specialize (Hm b). destruct (method b); cbn; congruence.
Qed.

Hypothesis builder_returns : nonblocking_builder B.

Lemma never_blocks_consume i item : never_blocks (consume args i item).
Proof.
  destruct builder_returns as (_ & Hadd & Hend & _).
  destruct item as [doc n]. unfold consume.
  apply never_blocks_bind; [intros st; discriminate|intros _].
  apply never_blocks_bind; [intros st; discriminate|intros _].
  apply never_blocks_bind.
  - apply never_blocks_for_each. intros [key sentences].
    apply never_blocks_bind.
    + apply never_blocks_for_each. intros s.
      apply never_blocks_call_builder. intros b. apply Hadd.
    + intros _. apply never_blocks_call_builder. exact Hend.
  - intros _ st. unfold log_progress.
    destruct (log_interval args =? 0); [discriminate|].
    destruct (i mod log_interval args =? 0); discriminate.
Qed.

Lemma never_blocks_make_builders : never_blocks (make_builders args tokenizer).
Proof.
  destruct builder_returns as (Hmake & _).
  apply never_blocks_for_each. intros key st. unfold make_builder_for.
  match goal with
  | |- context [make_builder ?o ?i ?v] =>
      specialize (Hmake o i v); destruct (make_builder o i v)
  end; cbn; congruence.
Qed.

Lemma never_blocks_finalize_all : never_blocks (B := B) (finalize_all args).
Proof.
  destruct builder_returns as (_ & _ & _ & Hfin).
  apply never_blocks_for_each. intros key st. unfold finalize_key.
  destruct (builders st !! key) as [b|]; [|discriminate].
  destruct (output_idx_files st !! key) as [idx|]; [|discriminate].
  apply never_blocks_call_builder. intros b'. apply Hfin.
Qed.

(** With a permit available at the start, the loop over the files never
    waits: each iteration gives back the permit it took. *)
Lemma drain_never_blocks (fnames : list string) :
  forall i (st : Driver B),
    0 < semaphore st ->
    fst (drain fix_text args tokenizer files fnames i st) <> Blocks.
Proof.
  induction fnames as [|fname rest IH]; intros i st Hsem.
  - discriminate.
  - cbn [drain]. unfold bind at 1, lift at 1.
    destruct (yielder files fname) as [[f|]|e|] eqn:Hy;
      [|apply IH; exact Hsem|discriminate|].
    2:{ unfold yielder, read in Hy.
        destruct (files !! fname); cbn in Hy; [|discriminate Hy].
        destruct (truthy _); discriminate Hy. }
    unfold bind at 1, acquire at 1.
    destruct (Z.ltb_spec 0 (semaphore st)) as [_|Hle]; [|lia].
    unfold bind at 1, lift at 1.
    pose proof (encode_raises_index_error f) as He.
    destruct (encode fix_text args tokenizer f) as [item|e|];
      [|discriminate|destruct He].
    unfold bind at 1.
    pose proof (consume_semaphore args i item
                  (set_semaphore (semaphore st - 1) st)) as Hrel.
    pose proof (never_blocks_consume i item
                  (set_semaphore (semaphore st - 1) st)) as Hnb.
    destruct (consume args i item _) as [[[]|e|] st2]; cbn in Hrel, Hnb;
      [|discriminate|congruence].
    apply IH. cbn in Hrel. lia.
Qed.

End InlineOutcomes.

(** X10. However the single-process run ends, the semaphore holds all its
    permits, or all but one; a permit is missing only when the run ended
    with [IndexError]: [encode] raised after the source had taken the
    permit of that document, and nothing releases it. *)
Theorem main_inline_permits
  {B : Type} {builder_ops : DatasetBuilder B}
  (fix_text : pystr -> pystr) (args : Args) (tokenizer : Tokenizer)
  (shuffle : list string -> list string) (files : filesystem)
  (walk : list (string * list string)) :
  let run := main_inline (B := B) fix_text args tokenizer shuffle files walk in
  0 <= 10000 + workers args ->
  semaphore (snd run) = 10000 + workers args
  \/ (fst run = Raise IndexError
      /\ semaphore (snd run) = 10000 + workers args - 1).
Proof.
  intros run HK. subst run.
  destruct (main_inline fix_text args tokenizer shuffle files walk)
    as [r st] eqn:Hrun.
  cbn [fst snd]. unfold main_inline in Hrun.
  unfold bind at 1, new_semaphore at 1 in Hrun.
  destruct (Z.ltb_spec (10000 + workers args) 0) as [Hneg|_]; [lia|].
  unfold bind at 1 in Hrun.
  pose proof (make_builders_frame args tokenizer
                (fun s _ _ => s = 10000 + workers args)
                (set_semaphore (10000 + workers args) fresh_driver) eq_refl)
    as Hmk.
  destruct (make_builders args tokenizer _) as [[[]|e|] st2];
    cbn [snd] in Hmk; [|inversion Hrun; subst; left; exact Hmk..].
  unfold bind at 1 in Hrun.
  destruct (drain fix_text args tokenizer files _ 1 st2) as [rd st3] eqn:Hd.
  apply drain_semaphore in Hd.
  destruct rd as [[]|e|].
  - destruct Hd as [Hd|[Hd _]]; [|discriminate Hd].
    pose proof (finalize_all_frame args
                  (fun s _ _ => s = 10000 + workers args) st3) as Hfin.
    rewrite Hrun in Hfin. cbn [snd] in Hfin. left. apply Hfin. lia.
  - inversion Hrun; subst.
    destruct Hd as [Hd|[Hd Hs]]; [left; lia|right; split; [exact Hd|lia]].
  - inversion Hrun; subst.
    destruct Hd as [Hd|[Hd _]]; [left; lia|discriminate Hd].
Qed.

Lemma main_inline_permits_witness :
  0 <= 10000 + workers (example_args ["text"%string] true true)
  /\ fst (main_inline (B := IndexedBuilder)
            (fun _ => []) (example_args ["text"%string] true true)
            char_tokenizer id scenario_files scenario_walk)
     = Raise IndexError
  /\ semaphore
       (snd (main_inline (B := IndexedBuilder)
               (fun _ => []) (example_args ["text"%string] true true)
               char_tokenizer id scenario_files scenario_walk))
     = 10000.
Proof.
  split; [vm_compute; discriminate|]. split; [vm_compute; reflexivity|].
  destruct (main_inline_permits (B := IndexedBuilder)
              (fun _ => []) (example_args ["text"%string] true true)
              char_tokenizer id scenario_files scenario_walk)
    as [Hall|[_ Hone]].
  - vm_compute. discriminate.
  - vm_compute in Hall. discriminate Hall.
  - rewrite Hone. reflexivity.
Defined.

(** X11. With at least one permit in the semaphore and builders that
    return or raise, the single-process run never waits for a permit: it
    returns or raises. *)
Theorem main_inline_never_blocks
  {B : Type} {builder_ops : DatasetBuilder B}
  (fix_text : pystr -> pystr) (args : Args) (tokenizer : Tokenizer)
  (shuffle : list string -> list string) (files : filesystem)
  (walk : list (string * list string)) :
  nonblocking_builder B ->
  0 < 10000 + workers args ->
  fst (main_inline (B := B) fix_text args tokenizer shuffle files walk)
  <> Blocks.
Proof.
  intros Hnb HK. unfold main_inline.
  unfold bind at 1, new_semaphore at 1.
  destruct (Z.ltb_spec (10000 + workers args) 0) as [Hneg|_]; [lia|].
  unfold bind at 1.
  pose proof (make_builders_frame args tokenizer
                (fun s _ _ => s = 10000 + workers args)
                (set_semaphore (10000 + workers args) fresh_driver) eq_refl)
    as Hmk.
  pose proof (never_blocks_make_builders args tokenizer Hnb
                (set_semaphore (10000 + workers args) fresh_driver)) as Hmb.
  destruct (make_builders args tokenizer _) as [[[]|e|] st2];
    cbn [fst snd] in *; [|discriminate|exact Hmb].
  unfold bind at 1.
  pose proof (drain_never_blocks fix_text args tokenizer files Hnb
                (list_fnames shuffle walk) 1 st2 ltac:(lia)) as Hdr.
  destruct (drain fix_text args tokenizer files _ 1 st2) as [[[]|e|] st3];
    cbn [fst] in *; [|discriminate|exact Hdr].
  apply never_blocks_finalize_all. exact Hnb.
Qed.

Lemma indexed_builder_nonblocking : nonblocking_builder IndexedBuilder.
Proof.
  repeat split.
  - intros out impl vocab. discriminate.
  - intros b seq. cbn. unfold ib_add_item.
    destruct (sealed b); [discriminate|].
    destruct (forallb _ _); discriminate.
  - intros b. cbn. unfold ib_end_document. destruct (sealed b); discriminate.
  - intros b idx. cbn. unfold ib_finalize. destruct (sealed b); discriminate.
Qed.

(** With no permit at all ([--workers -10000]) the run waits for ever at
    the first non-empty document. *)
Lemma main_inline_blocks_without_permits :
  fst (main_inline (B := IndexedBuilder) id
         {| input := "corpus"; json_keys := ["text"%string]; num_docs := None;
            append_eod := true; ftfy := false; output_prefix := "out";
            dataset_impl := "mmap"; workers := -10000; log_interval := 100 |}
         char_tokenizer id scenario_files scenario_walk)
  = Blocks.
Proof. vm_compute. reflexivity. Qed.

Lemma main_inline_never_blocks_witness :
  nonblocking_builder IndexedBuilder
  /\ 0 < 10000 + workers scenario_args
  /\ fst (main_inline (B := IndexedBuilder) id scenario_args char_tokenizer id
            broken_files scenario_walk)
     <> Blocks.
Proof.
  split; [exact indexed_builder_nonblocking|].
  split; [vm_compute; reflexivity|].
  apply (main_inline_never_blocks (B := IndexedBuilder) id scenario_args
           char_tokenizer id broken_files scenario_walk
           indexed_builder_nonblocking).
  vm_compute. reflexivity.
Defined.

(** X12. When a key other than "text" is configured the single-process
    run never completes, whatever the files, the tokenizer and the
    builders: only "text" gets a builder, and both the routing of results
    and the loop that saves the files look the configured keys up. *)
Theorem unconfigured_builder_never_completes
  {B : Type} {builder_ops : DatasetBuilder B}
  (fix_text : pystr -> pystr) (args : Args) (tokenizer : Tokenizer)
  (shuffle : list string -> list string) (files : filesystem)
  (walk : list (string * list string)) (key : string) :
  In key (json_keys args) ->
  key <> "text"%string ->
  fst (main_inline (B := B) fix_text args tokenizer shuffle files walk)
  <> Ok tt.
Proof. intros Hin Hne. apply (main_inline_other_key _ _ _ key); assumption. Qed.

Lemma unconfigured_builder_never_completes_witness :
  In "label"%string (json_keys (example_args ["label"%string] false false))
  /\ "label"%string <> "text"%string
  /\ fst (main_inline (B := IndexedBuilder) id
            (example_args ["label"%string] false false) char_tokenizer id
            ∅ [])
     <> Ok tt.
Proof.
  split; [left; reflexivity|]. split; [discriminate|].
  apply (unconfigured_builder_never_completes (B := IndexedBuilder) id
           (example_args ["label"%string] false false) char_tokenizer id
           ∅ [] "label").
  - left; reflexivity.
  - discriminate.
Defined.

(** ** The pipeline under any schedule *)

Section PipelineFacts.

Context {B : Type} {builder_ops : DatasetBuilder B}.
Variable fix_text : pystr -> pystr.
Variable args : Args.
Variable tokenizer : Tokenizer.
Variable files : filesystem.


End PipelineFacts.

(** X13. In every state the pipeline can reach, under any schedule, the
    value of the semaphore lies between 0 and its capacity 10000 +
    workers, and the permits missing from it are exactly those of the
    documents in flight: the driver never releases a permit that was not
    taken. *)
Theorem permits_conserved
  {B : Type} {builder_ops : DatasetBuilder B}
  (fix_text : pystr -> pystr) (args : Args) (tokenizer : Tokenizer)
  (files : filesystem) (fnames : list string) (p : Pipeline B) :
  reachable fix_text args tokenizer files fnames p ->
  0 <= semaphore (driver p) <= 10000 + workers args
  /\ semaphore (driver p) = 10000 + workers args - len (in_flight p).
Proof.
  intros Hreach.
  destruct (permits_accounted _ _ _ _ _ _ Hreach) as [Hsum Hpos].
  unfold len in *. lia.
Qed.

Lemma scenario_one_in_flight_reachable :
  reachable id scenario_args char_tokenizer scenario_files
            (list_fnames id scenario_walk) scenario_one_in_flight.
Proof.
  apply (reach_step _ _ _ _ _ scenario_start).
  - apply reach_launch. vm_compute; reflexivity.
  - apply (source_yield id scenario_args char_tokenizer scenario_files
             scenario_start "corpus/f1" ["corpus/f2"; "corpus/f3"]%string
             (document_of (ascii_bytes "hello world"))).
    + reflexivity.
    + vm_compute; reflexivity.
    + vm_compute; reflexivity.
Defined.

Lemma permits_conserved_witness :
  reachable id scenario_args char_tokenizer scenario_files
            (list_fnames id scenario_walk) scenario_one_in_flight
  /\ semaphore (driver scenario_one_in_flight)
     = 10000 + workers scenario_args - len (in_flight scenario_one_in_flight).
Proof.
  split; [exact scenario_one_in_flight_reachable|].
  exact (proj2 (permits_conserved _ _ _ _ _ _
                  scenario_one_in_flight_reachable)).
Defined.



